(** * Budget-constrained spanning forest of networkplanner (modKruskal)

    A shallow embedding of [np/lib/network/modKruskal/__init__.py]:
    the candidate generation [generateSegments], the greedy merge loop
    [buildNetworkFromSegments] and the final pruning of
    [buildNetworkFromNodes], together with the part of
    [np/lib/variable_store.py] that resolves the algorithm's parameters.
    Module [Variables] embeds [np/lib/variable_store.py] as a whole: the
    keys of variables, the validation of the classes, the store with its
    constructor and its lookups, and [gatherVariables].

    Numbers.  Python weights and coordinates are floats.  A finite float
    is embedded as the rational number [Q] it denotes and compared by
    value ([Qeq], [Qle_bool]); the sum and the difference that the merge
    loop computes are rounded, by the [round] of [FloatArithmetic].
    Infinities and NaN are not modelled.

    Objects.  A node is a mutable Python object shared by every segment and
    subnet that refers to it.  Its immutable attributes (identifier and
    coordinates) are the value [Node.t]; its mutable weight lives in a
    store [Weights] indexed by the node, so that an update through one
    reference is seen through all of them. *)

From Stdlib Require Import QArith Qabs Qminmax Qround Lia Lqa Permutation Sorted Ascii.
From stdpp Require Import base decidable option list strings gmap.

Set Default Proof Using "Type".
Local Open Scope Z_scope.

(** ** Python numbers *)

(** [a >= b] and [a < b] on Python floats, by value. *)
Definition Qge_bool (a b : Q) : bool := Qle_bool b a.
Definition Qlt_bool (a b : Q) : bool := negb (Qle_bool b a).

Global Instance Q_eq_dec : EqDecision Q.
Proof. solve_decision. Defined.

(** The arithmetic of the weights.  The sum and the difference of two
    floats are the exact results rounded to a float, [round]: rounding
    keeps the order of the numbers and gives zero for zero.  Where the
    weights are Python integers the results are exact, and [round] is the
    identity. *)
Class FloatArithmetic := {
  round : Q -> Q;
  round_monotone : forall x y, (x <= y)%Q -> (round x <= round y)%Q;
  round_zero : (round 0 == 0)%Q
}.

(** ** Exceptions *)

Inductive Exception :=
  | VariableError (message : string)
  | ValueError
  | IndexError
  | TypeError.

Definition Result (A : Type) : Type := Exception + A.

Definition raise {A} (e : Exception) : Result A := inl e.

Definition bind {A B} (m : Result A) (k : A -> Result B) : Result B :=
  match m with
  | inl e => inl e
  | inr a => k a
  end.

Notation "'let*' x ':=' m 'in' k" := (bind m (fun x => k))
  (at level 10, x pattern, m at level 100, k at level 200, only parsing).

(** ** The classes of [np.lib.network] used by the algorithm *)

Module Node.

(** Modelled from the spec: class [Node] of [np.lib.network], the module
    that [modKruskal] imports.  A node has an integer identifier (negative
    for a fixed attachment point of an existing network) and a coordinate
    pair; one node exists per distinct coordinate pair. *)
Record t := mk { getID : Z; getCoordinates : Q * Q }.

Global Instance eq_dec : EqDecision t.
Proof. solve_decision. Defined.

(** A fixed node, [node.getID() < 0]. *)
Definition isFake (n : t) : bool := getID n <? 0.

End Node.

(** The weight attribute of every node object. *)
Definition Weights := Node.t -> Q.

(** [node.setWeight(weight)]. *)
Definition setWeight (w : Weights) (node : Node.t) (weight : Q) : Weights :=
  fun n => if decide (n = node) then weight else w n.

Module Segment.

(** Modelled from the spec: class [Segment] of [np.lib.network].  An
    ordered pair of nodes, a cost, and the flag of a segment that belongs
    to an existing network. *)
Record t := mk {
  node1 : Node.t;
  node2 : Node.t;
  getWeight : Q;
  is_existing : bool
}.

Global Instance eq_dec : EqDecision t.
Proof. solve_decision. Defined.

Definition getNodes (s : t) : Node.t * Node.t := (node1 s, node2 s).

End Segment.

Module Subnet.

(** Modelled from the spec: class [Subnet] of [np.lib.network].  A
    connected component: the nodes reachable through the committed
    segments, and those segments.  The component's shared weight is the
    weight held by its nodes. *)
Record t := mk { nodes : list Node.t; segments : list Segment.t }.

Global Instance eq_dec : EqDecision t.
Proof. solve_decision. Defined.

(** Modelled from the spec: [Subnet.cycleNodes()], the "membership
    enumeration (real, non-fixed nodes only)" of section 4.5: the members
    of the component whose identifier is not negative. *)
Definition cycleNodes (s : t) : list Node.t :=
  filter (fun n => Node.isFake n = false) (nodes s).

(** Modelled from the spec: [Subnet.countNodes()], the "component size"
    of the same sentence: the number of real (non-fixed) nodes of the
    component, the count the pruning uses. *)
Definition countNodes (s : t) : nat := length (cycleNodes s).

Definition contains (n : Node.t) (s : t) : bool := bool_decide (n ∈ nodes s).

(** Modelled from the spec: the singleton component of a node that has not
    been merged yet. *)
Definition singleton (n : Node.t) : t := mk [n] [].

(** Modelled from the spec: [Subnet(segments)], the component made of the
    given segments and of their endpoints. *)
Definition ofSegments (segs : list Segment.t) : t :=
  mk (remove_dups (flat_map (fun s => [Segment.node1 s; Segment.node2 s]) segs)) segs.

(** Modelled from the spec: the union of two components through
    [segment]; its node set is the union of the two node sets, in which a
    node of both is listed once. *)
Definition merge (segment : Segment.t) (a b : t) : t :=
  mk (list_union (nodes a) (nodes b)) (segment :: segments a ++ segments b).

End Subnet.

(** ** External collaborators: distances and nearest neighbours *)

Definition Coordinates : Type := Q * Q.

(** Equality of coordinate pairs, by value. *)
Definition sameCoordinates (a b : Coordinates) : bool :=
  Qeq_bool a.1 b.1 && Qeq_bool a.2 b.2.

(** [network.computeEuclideanDistance] and
    [network.computeSphericalDistance], which the source compares by
    identity. *)
Inductive DistanceMetric := computeEuclideanDistance | computeSphericalDistance.

Global Instance DistanceMetric_eq_dec : EqDecision DistanceMetric.
Proof. solve_decision. Defined.

(** The geometry the algorithm is given: the cost of a segment between two
    coordinate pairs (the distance times the unit cost, for the metric and
    the projection that the factory was made with; the flag says whether
    the segment belongs to an existing network), and for the spatial index
    the rows of a coordinate matrix in order of increasing distance from a
    point. *)
Class Geometry := {
  computeCost : DistanceMetric -> string -> bool -> Coordinates -> Coordinates -> Q;
  nearestRows : DistanceMetric -> list Coordinates -> Coordinates -> list nat
}.

Module SegmentFactory.

(** Modelled from the spec: class [SegmentFactory] of [np.lib.network],
    the registry that owns every node and segment of one build.  Nodes
    are canonical per coordinate pair, segments per unordered pair of
    endpoints. *)
Record t := mk {
  metric : DistanceMetric;
  proj4 : string;
  nodes : list Node.t;
  segments : list Segment.t
}.

(** Modelled from the spec: deduplication by coordinate; the first node
    of every coordinate pair is the canonical one. *)
Fixpoint dedupByCoordinates (l : list Node.t) : list Node.t :=
  match l with
  | [] => []
  | n :: l' =>
      n :: filter (fun m => sameCoordinates (Node.getCoordinates m) (Node.getCoordinates n) = false)
             (dedupByCoordinates l')
  end.

(** Modelled from the spec: [SegmentFactory(nodes, computeDistance, proj4)]. *)
Definition new (inputNodes : list Node.t) (computeDistance : DistanceMetric)
    (proj4 : string) : t :=
  mk computeDistance proj4 (dedupByCoordinates inputNodes) [].

(** Modelled from the spec: [segmentFactory.getNodes()], the canonical
    demand nodes. *)
Definition getNodes (f : t) : list Node.t :=
  filter (fun n => Node.isFake n = false) (nodes f).

(** Modelled from the spec: the canonical node at [c].  A coordinate pair
    that is not a known node becomes a fixed node; the numbering of the
    fixed nodes, -1, -2, ..., is a choice of this model. *)
Definition getNode (f : t) (c : Coordinates) : t * Node.t :=
  match find (fun n => sameCoordinates (Node.getCoordinates n) c) (nodes f) with
  | Some n => (f, n)
  | None =>
      let fakes := filter (fun n => Node.isFake n = true) (nodes f) in
      let n := Node.mk (- Z.of_nat (S (length fakes))) c in
      (mk (metric f) (proj4 f) (nodes f ++ [n]) (segments f), n)
  end.

Definition joins (a b : Node.t) (s : Segment.t) : bool :=
  bool_decide (Segment.node1 s = a ∧ Segment.node2 s = b)
  || bool_decide (Segment.node1 s = b ∧ Segment.node2 s = a).

(** Modelled from the spec: [segmentFactory.getSegment(c1, c2,
    is_existing)], the canonical segment of the unordered pair, created on
    the first request with the cost of the pair. *)
Definition getSegment `{Geometry} (f : t) (c1 c2 : Coordinates) (is_existing : bool)
    : t * Segment.t :=
  let '(f1, n1) := getNode f c1 in
  let '(f2, n2) := getNode f1 c2 in
  match find (joins n1 n2) (segments f2) with
  | Some s => (f2, s)
  | None =>
      let s :=
        Segment.mk n1 n2 (computeCost (metric f2) (proj4 f2) is_existing c1 c2)
          is_existing in
      (mk (metric f2) (proj4 f2) (nodes f2) (segments f2 ++ [s]), s)
  end.

End SegmentFactory.

Module Network.

(** Modelled from the spec: class [Network] of [np.lib.network].  The
    collection of subnets ([net.subnets] in the source) and the commit
    history, the segments that were accepted, latest first. *)
Record t := mk { subnets : list Subnet.t; history : list Segment.t }.

(** Modelled from the spec: [Network(segmentFactory)]; every real node
    starts as a component on its own. *)
Definition new (segmentFactory : SegmentFactory.t) : t :=
  mk (map Subnet.singleton (SegmentFactory.getNodes segmentFactory)) [].

(** Modelled from the spec: [net.cycleSubnets()], the current components. *)
Definition cycleSubnets (net : t) : list Subnet.t := subnets net.

(** Modelled from the spec: the lookup of the subnet that currently
    contains [n], with its position in [net.subnets], which stands for the
    identity of the subnet object. *)
Definition findSubnet (net : t) (n : Node.t) : option (nat * Subnet.t) :=
  list_find (fun s => n ∈ Subnet.nodes s) (subnets net).

(** Modelled from the spec: the subnet of [n], the singleton of [n] when
    no subnet holds it yet. *)
Definition subnetOf (net : t) (n : Node.t) : Subnet.t :=
  match findSubnet net n with
  | Some (_, s) => s
  | None => Subnet.singleton n
  end.

(** Modelled from the spec: whether the two endpoints lie in the identical
    subnet.  A node that no subnet holds is a component on its own. *)
Definition sameSubnet (net : t) (n1 n2 : Node.t) : bool :=
  match findSubnet net n1, findSubnet net n2 with
  | Some (i, _), Some (j, _) => bool_decide (i = j)
  | None, None => bool_decide (n1 = n2)
  | _, _ => false
  end.

(** Modelled from the spec: [Network.addSegment(segment)].  It looks up
    the subnets that contain the endpoints.  If they are identical the
    segment would close a cycle: nothing changes and the result is
    [None].  Otherwise the two subnets are replaced by their union, which
    is returned. *)
Definition addSegment (net : t) (segment : Segment.t) : t * option Subnet.t :=
  let '(n1, n2) := Segment.getNodes segment in
  if sameSubnet net n1 n2 then (net, None)
  else
    let merged := Subnet.merge segment (subnetOf net n1) (subnetOf net n2) in
    let others :=
      filter (fun s => Subnet.contains n1 s = false ∧ Subnet.contains n2 s = false)
             (subnets net) in
    (mk (merged :: others) (segment :: history net), Some merged).

End Network.

(** ** [sorted(segments, key=...)] *)

Section Sorted.

Context {A : Type} (key : A -> Q).

(** Insertion of [x], which preceded every element of [l] in the input:
    it stays in front of the elements whose key is not smaller. *)
Fixpoint insertByKey (x : A) (l : list A) : list A :=
  match l with
  | [] => [x]
  | y :: l' =>
      if Qlt_bool (key y) (key x) then y :: insertByKey x l'
      else x :: y :: l'
  end.

(** Python's [sorted] with a key: ascending and stable. *)
Definition sorted (l : list A) : list A := foldr insertByKey [] l.

(** The order of the keys. *)
Definition ascending : relation A := fun a b => (key a <= key b)%Q.

(** The elements of key [q], in the order in which a list holds them. *)
Definition withKey (q : Q) (l : list A) : list A :=
  filter (fun a => Qeq_bool (key a) q = true) l.

End Sorted.

(** ** The merge loop *)

(** The state the loop works on: the network, the weights of the node
    objects, and the log of the calls of [net.addSegment], oldest first. *)
Record State := mkState {
  net : Network.t;
  weights : Weights;
  calls : list Segment.t
}.

(** The affordability test of one endpoint,
    [nWeight >= sWeight or node.getID() < 0]. *)
Definition qualifies (w : Weights) (node : Node.t) (sWeight : Q) : bool :=
  Qge_bool (w node) sWeight || (Node.getID node <? 0).

(** [for node in subnet.cycleNodes(): node.setWeight(weight)]. *)
Definition setWeights (w : Weights) (nodes : list Node.t) (weight : Q) : Weights :=
  fold_left (fun w node => setWeight w node weight) nodes w.

(** The body of the loop of [buildNetworkFromSegments].  The new weight
    is [n1Weight + n2Weight - sWeight], a sum and then a difference of
    floats. *)
Definition processSegment `{FloatArithmetic} (st : State) (segment : Segment.t) : State :=
  let '(node1, node2) := Segment.getNodes segment in
  let n1Weight := weights st node1 in
  let n2Weight := weights st node2 in
  let sWeight := Segment.getWeight segment in
  let node1Qualifies := Qge_bool n1Weight sWeight || (Node.getID node1 <? 0) in
  let node2Qualifies := Qge_bool n2Weight sWeight || (Node.getID node2 <? 0) in
  if node1Qualifies && node2Qualifies then
    match Network.addSegment (net st) segment with
    | (net', Some subnet) =>
        let weight := round (round (n1Weight + n2Weight) - sWeight)%Q in
        mkState net' (setWeights (weights st) (Subnet.cycleNodes subnet) weight)
                (calls st ++ [segment])
    | (net', None) => mkState net' (weights st) (calls st ++ [segment])
    end
  else st.

(** The loop over a given processing order. *)
Definition processSegments `{FloatArithmetic} (st : State) (order : list Segment.t)
    : State :=
  fold_left processSegment order st.

(** [buildNetworkFromSegments(segments, net)], on the node weights [w]. *)
Definition buildNetworkFromSegments `{FloatArithmetic}
    (segments : list Segment.t) (net0 : Network.t) (w : Weights) : State :=
  processSegments (mkState net0 w []) (sorted Segment.getWeight segments).

(** ** Configuration: [np/lib/variable_store.py] *)

Module variable_store.

(** What [valueByOptionBySection] holds for one option: no entry, an
    entry that is [None] or the empty string, or a value. *)
Inductive Entry (A : Type) :=
  | Missing
  | Blank
  | Given (value : A).
Arguments Missing {A}.
Arguments Blank {A}.
Arguments Given {A} value.

(** The three variables of [modKruskal.VariableStore]. *)
Record Values := mkValues {
  minimumNodeCountPerSubnetwork : Entry Z;
  maximumNearestNeighborCount : Entry Z;
  existingNetworks : Entry string
}.

(** A store and its parent stores, innermost first, with the [state] that
    the constructor was given: [None], or a sequence of objects.  Of the
    objects only [getBasePath()] is used; an object is modelled by the
    path it answers with. *)
Record VariableStore := mkStore {
  valueByOptionBySection : Values;
  variableStore : list Values;
  state : option (list string)
}.

(** [VariableStore.get] for a variable with a default.  The constructor
    caches a variable whose option has an entry ([extractVariableValue]),
    with the default in place of a blank value ([Variable.__init__]); a
    store with a parent leaves a variable without entry to the parent,
    and the outermost store caches the default. *)
Fixpoint getFrom {A} (entry : Values -> Entry A) (default : A)
    (own : Values) (parents : list Values) : A :=
  match entry own with
  | Given value => value
  | Blank => default
  | Missing =>
      match parents with
      | [] => default
      | parent :: ancestors => getFrom entry default parent ancestors
      end
  end.

Definition get {A} (entry : Values -> Entry A) (default : A) (self : VariableStore) : A :=
  getFrom entry default (valueByOptionBySection self) (variableStore self).

End variable_store.

Import variable_store.

(** [self.get(MinimumNodeCountPerSubnetwork)], default 2. *)
Definition getMinimumNodeCountPerSubnetwork (self : VariableStore) : Z :=
  get minimumNodeCountPerSubnetwork 2 self.

(** [self.get(MaximumNearestNeighborCount)], default 5. *)
Definition getMaximumNearestNeighborCount (self : VariableStore) : Z :=
  get maximumNearestNeighborCount 5 self.

(** [self.get(ExistingNetworks)], default the empty string. *)
Definition getExistingNetworks (self : VariableStore) : string :=
  get existingNetworks EmptyString self.

(** [self.state[0].getBasePath()].  [None] cannot be indexed, and an
    empty sequence has no first element. *)
Definition getBasePath (self : VariableStore) : Result string :=
  match state self with
  | None => raise TypeError
  | Some [] => raise IndexError
  | Some (scenario :: _) => inr scenario
  end.

(** ** The spatial index: [scipy.spatial.KDTree] and [pysal.cg.Arc_KDTree] *)

Module KDTree.

(** The two index classes come from libraries, not from networkplanner.
    What is modelled is their documented behaviour on the calls the source
    makes: the constructor over the coordinate matrix and [query] with a
    point and [k].  The order of the rows by distance is the geometry's. *)
Record t := mk { metric : DistanceMetric; data : list Coordinates }.

(** [KDTree(networkNodeMatrix)] and [Arc_KDTree(networkNodeMatrix, radius)].
    The constructor unpacks the shape of the matrix into a number of rows
    and a number of columns; the array made from an empty list of rows
    has the one-dimensional shape [(0,)], and the constructor raises. *)
Definition new (metric : DistanceMetric) (data : list Coordinates) : Result t :=
  match data with
  | [] => raise ValueError
  | _ :: _ => inr (mk metric data)
  end.

(** The second component of the result of [query]: one index when one
    neighbour is asked for, an array of [k] indices otherwise. *)
Inductive Indices :=
  | Scalar (i : nat)
  | Array (l : list nat).

(** [kdTree.query(x, k)[1]].  The index answers with the [k] nearest rows,
    nearest first; the neighbours that are missing because the tree holds
    fewer than [k] points are filled in with the number of rows.  The
    configuration is meant to supply [k >= 1]; a smaller [k] is rejected. *)
Definition query `{Geometry} (tree : t) (x : Coordinates) (k : Z) : Result Indices :=
  let n := length (data tree) in
  let hits := take (Z.to_nat k) (nearestRows (metric tree) (data tree) x) in
  if k <? 1 then raise ValueError
  else if k =? 1 then inr (Scalar (default n (head hits)))
  else inr (Array (hits ++ replicate (Z.to_nat k - length hits) n)).

End KDTree.

(** What indexing the coordinate matrix yields: one row for a scalar index,
    a matrix of rows for an array of indices. *)
Inductive Indexed :=
  | Row (c : Coordinates)
  | Rows (l : list Coordinates).

(** [networkNodeMatrix[nodeIndices]]; an index that is not a row of the
    matrix raises. *)
Definition getRow (matrix : list Coordinates) (i : nat) : Result Coordinates :=
  match matrix !! i with
  | Some c => inr c
  | None => raise IndexError
  end.

Fixpoint getRows (matrix : list Coordinates) (l : list nat) : Result (list Coordinates) :=
  match l with
  | [] => inr []
  | i :: l' =>
      let* c := getRow matrix i in
      let* cs := getRows matrix l' in
      inr (c :: cs)
  end.

Definition getitem (matrix : list Coordinates) (ix : KDTree.Indices) : Result Indexed :=
  match ix with
  | KDTree.Scalar i => let* c := getRow matrix i in inr (Row c)
  | KDTree.Array l => let* cs := getRows matrix l in inr (Rows cs)
  end.

(** ** Existing networks *)

(** What the path of the existing networks leads to: no archive, an
    archive without a shapefile, or a shapefile with its projection and
    the coordinate pairs of its simplified geometries. *)
Inductive Archive :=
  | NoArchive
  | NoShapefile
  | Shapefile (networkProj4 : string)
      (networkCoordinatePairs : list (Coordinates * Coordinates)).

(** The collaborators of the existing-network branch: the file system
    under [os.path.join(basePath, networkRelativePath)], the point
    transformation [geometry_store.get_transform_point(networkProj4,
    proj4)], and [net.project], the candidate segments that connect nodes
    to their projection on the existing network. *)
Class ExistingNetwork := {
  archiveAt : string -> string -> Archive;
  transform_point : string -> string -> Coordinates -> Coordinates;
  project : Network.t -> list Node.t -> list Segment.t
}.

(** ** Candidate generation *)

Section GenerateSegments.

Context `{Geometry} `{ExistingNetwork} `{FloatArithmetic}.

(** The segments of the existing network, through the factory, between
    the transformed points of each coordinate pair. *)
Fixpoint existingSegments (f : SegmentFactory.t) (transform : Coordinates -> Coordinates)
    (pairs : list (Coordinates * Coordinates)) : SegmentFactory.t * list Segment.t :=
  match pairs with
  | [] => (f, [])
  | (c1, c2) :: pairs' =>
      let '(f1, s) := SegmentFactory.getSegment f (transform c1) (transform c2) true in
      let '(f2, l) := existingSegments f1 transform pairs' in
      (f2, s :: l)
  end.

(** The inner loop: one candidate from [node1] to each of the rows. *)
Fixpoint appendCandidates (f : SegmentFactory.t) (segments : list Segment.t)
    (node1 : Node.t) (rows : list Coordinates) : SegmentFactory.t * list Segment.t :=
  match rows with
  | [] => (f, segments)
  | node2Coordinates :: rows' =>
      let '(f', s) :=
        SegmentFactory.getSegment f (Node.getCoordinates node1) node2Coordinates false in
      appendCandidates f' (segments ++ [s]) node1 rows'
  end.

(** The outer loop over the nodes.  With a scalar index the matrix yields
    one row, whose elements are numbers: [tuple(node2Coordinates)]
    raises. *)
Fixpoint candidatesPerNode (kdTree : KDTree.t) (k : Z) (networkNodeMatrix : list Coordinates)
    (f : SegmentFactory.t) (segments : list Segment.t) (networkNodes : list Node.t)
    : Result (list Segment.t) :=
  match networkNodes with
  | [] => inr segments
  | node1 :: rest =>
      let* nodeIndices := KDTree.query kdTree (Node.getCoordinates node1) k in
      let* picked := getitem networkNodeMatrix nodeIndices in
      match picked with
      | Row _ => raise TypeError
      | Rows rows =>
          let '(f', segments') := appendCandidates f segments node1 rows in
          candidatesPerNode kdTree k networkNodeMatrix f' segments' rest
      end
  end.

(** [generateSegments(self, nodes, computeDistance, proj4)]. *)
Definition generateSegments (self : VariableStore) (nodes : list Node.t)
    (computeDistance : DistanceMetric) (proj4 : string)
    : Result (list Segment.t * Network.t) :=
  let segmentFactory := SegmentFactory.new nodes computeDistance proj4 in
  let networkNodes := SegmentFactory.getNodes segmentFactory in
  let net := Network.new segmentFactory in
  let networkRelativePath := getExistingNetworks self in
  let* (segmentFactory, segments, net) :=
    if bool_decide (networkRelativePath = EmptyString) then
      inr (segmentFactory, [], net)
    else
      let* basePath := getBasePath self in
      match archiveAt basePath networkRelativePath with
      | NoArchive =>
          raise (VariableError "Expected ZIP archive containing shapefile for existing networks")
      | NoShapefile =>
          raise (VariableError "Could not find shapefile in ZIP archive for existing networks")
      | Shapefile networkProj4 networkCoordinatePairs =>
          let '(f, existing) :=
            existingSegments segmentFactory (transform_point networkProj4 proj4)
              networkCoordinatePairs in
          let net' :=
            Network.mk (Network.subnets net ++ [Subnet.ofSegments existing])
                       (Network.history net) in
          inr (f, project net' networkNodes, net')
      end in
  let networkNodeMatrix := map Node.getCoordinates networkNodes in
  let* kdTree := KDTree.new computeDistance networkNodeMatrix in
  let k := getMaximumNearestNeighborCount self in
  let* segments := candidatesPerNode kdTree k networkNodeMatrix segmentFactory segments networkNodes in
  inr (segments, net).

(** ** The whole build *)

(** ['+units=m' in proj4]. *)
Definition unitsInMeters (proj4 : string) : bool :=
  match String.index 0 "+units=m" proj4 with
  | Some _ => true
  | None => false
  end.

(** The pruning step: the subnets with enough real nodes. *)
Definition eliminateSmallSubnets (minimumNodeCountPerSubnetwork : Z) (net : Network.t)
    : Network.t :=
  Network.mk
    (filter (fun subnet => minimumNodeCountPerSubnetwork <= Z.of_nat (Subnet.countNodes subnet))
            (Network.cycleSubnets net))
    (Network.history net).

(** [buildNetworkFromNodes(self, nodes, proj4)], on the node weights [w]. *)
Definition buildNetworkFromNodes (self : VariableStore) (nodes : list Node.t)
    (proj4 : string) (w : Weights) : Result State :=
  let computeDistance :=
    if unitsInMeters proj4 then computeEuclideanDistance else computeSphericalDistance in
  let* (segments, net0) := generateSegments self nodes computeDistance proj4 in
  let st := buildNetworkFromSegments segments net0 w in
  let minimumNodeCountPerSubnetwork := getMinimumNodeCountPerSubnetwork self in
  inr (mkState (eliminateSmallSubnets minimumNodeCountPerSubnetwork (net st))
               (weights st) (calls st)).

End GenerateSegments.


(** ** Python string methods *)

Module PyString.

Definition isEmpty (s : string) : bool :=
  match s with
  | EmptyString => true
  | String _ _ => false
  end.

(** The scan of [s.replace(old, new)] for a nonempty [old]: from left to
    right, every occurrence that does not overlap the one before it.
    [skip] counts the characters of the current occurrence that are still
    to be passed over. *)
Fixpoint replaceFrom (old new : string) (skip : nat) (s : string) : string :=
  match s with
  | EmptyString => EmptyString
  | String c s' =>
      match skip with
      | S n => replaceFrom old new n s'
      | O =>
          if String.prefix old s
          then new +:+ replaceFrom old new (String.length old - 1) s'
          else String c (replaceFrom old new 0 s')
      end
  end.

(** [new] after every character, the result of replacing the empty string. *)
Fixpoint followEach (new : string) (s : string) : string :=
  match s with
  | EmptyString => EmptyString
  | String c s' => String c (new +:+ followEach new s')
  end.

(** [s.replace(old, new)]. *)
Definition replace (old new : string) (s : string) : string :=
  if isEmpty old then new +:+ followEach new s else replaceFrom old new 0 s.

(** The scan of [s.split(sep)] for a nonempty [sep]; [cur] is the piece
    read so far. *)
Fixpoint splitFrom (sep : string) (skip : nat) (cur : string) (s : string) : list string :=
  match s with
  | EmptyString => [cur]
  | String c s' =>
      match skip with
      | S n => splitFrom sep n cur s'
      | O =>
          if String.prefix sep s
          then cur :: splitFrom sep (String.length sep - 1) EmptyString s'
          else splitFrom sep 0 (cur +:+ String c EmptyString) s'
      end
  end.

(** [s.split(sep)]; an empty separator is refused. *)
Definition split (sep : string) (s : string) : Result (list string) :=
  if isEmpty sep then raise ValueError else inr (splitFrom sep 0 EmptyString s).

(** The whitespace of [str.strip()]: space, tab, line feed, vertical tab,
    form feed and carriage return. *)
Definition isspace (c : Ascii.ascii) : bool :=
  let n := Ascii.nat_of_ascii c in
  (n =? 32)%nat || ((9 <=? n)%nat && (n <=? 13)%nat).

Fixpoint lstrip (s : string) : string :=
  match s with
  | EmptyString => EmptyString
  | String c s' => if isspace c then lstrip s' else s
  end.

Fixpoint rstrip (s : string) : string :=
  match s with
  | EmptyString => EmptyString
  | String c s' =>
      match rstrip s' with
      | EmptyString => if isspace c then EmptyString else String c EmptyString
      | r => String c r
      end
  end.

(** [s.strip()]. *)
Definition strip (s : string) : string := rstrip (lstrip s).

End PyString.

(** ** Variables and stores: [np/lib/variable_store.py] in full

    The model of the whole module, next to the typed reading of the three
    parameters above.  It lives in a module of its own, because the class
    attributes keep their names ([default], [parse], [check]). *)

Module Variables.

(** *** Keys of variables: [formatKey] and [parseKey] *)

(** [separator = '00']. *)
Definition separator : string := "00".

(** [formatKey(modelType, variable)], on the section and the option of the
    variable: the three names joined by the separator, then spaces and
    parentheses replaced by digit pairs. *)
Definition formatKey (modelType section option : string) : string :=
  PyString.replace ")" "33"
    (PyString.replace "(" "22"
       (PyString.replace " " "11"
          (modelType +:+ separator +:+ section +:+ separator +:+ option))).

(** [parseKey(key)]. *)
Definition parseKey (key : string) : Result (list string) :=
  let* parts :=
    PyString.split separator
      (PyString.replace "33" ")"
         (PyString.replace "22" "("
            (PyString.replace "11" " " key))) in
  inr (map PyString.strip parts).

(** The characters of a string replaced one by one. *)
Fixpoint mapChars (f : Ascii.ascii -> string) (s : string) : string :=
  match s with
  | EmptyString => EmptyString
  | String c s' => f c +:+ mapChars f s'
  end.

(** What [formatKey] writes for one character. *)
Definition encodeChar (c : Ascii.ascii) : string :=
  if Ascii.eqb c " "%char then "11"
  else if Ascii.eqb c "("%char then "22"
  else if Ascii.eqb c ")"%char then "33"
  else String c EmptyString.

(** No character of the string is [d]. *)
Fixpoint without (d : Ascii.ascii) (s : string) : bool :=
  match s with
  | EmptyString => true
  | String c s' => negb (Ascii.eqb c d) && without d s'
  end.

(** The string holds none of the digits that the keys use: 0 for the
    separator, 1, 2 and 3 for the space and the parentheses. *)
Definition withoutKeyDigits (s : string) : bool :=
  without "0"%char s && without "1"%char s && without "2"%char s && without "3"%char s.

(** Every character of the string passes the test. *)
Fixpoint everyChar (p : Ascii.ascii -> bool) (s : string) : bool :=
  match s with
  | EmptyString => true
  | String c s' => p c && everyChar p s'
  end.

(** A character two times. *)
Definition twice (d : Ascii.ascii) : string := String d (String d EmptyString).

(** The characters that the decoding of a key gives back: all but the
    digits 1, 2 and 3. *)
Definition decodable (c : Ascii.ascii) : bool :=
  negb (Ascii.eqb c "1"%char) && negb (Ascii.eqb c "2"%char)
  && negb (Ascii.eqb c "3"%char).



(** *** Values and variables *)

(** The Python values that a dictionary of settings holds: [None], a
    string, an integer, or a dictionary with string keys. *)
#[warnings="-register-all"]
Inductive Value :=
  | VNone
  | VStr (s : string)
  | VInt (z : Z)
  | VDict (items : gmap string Value).

(** [value == None]. *)
Definition isNone (v : Value) : bool :=
  match v with
  | VNone => true
  | _ => false
  end.

(** [value == None or value == '']. *)
Definition isBlank (v : Value) : bool :=
  match v with
  | VNone => true
  | VStr s => PyString.isEmpty s
  | _ => false
  end.

(** The builtins [int] and [str] that the variables of [modKruskal] parse
    with.  Only what they do to a value of their own type is fixed: they
    return it. *)
Class Builtins := {
  pyInt : Value -> Result Value;
  pyStr : Value -> Result Value;
  pyInt_int : forall z, pyInt (VInt z) = inr (VInt z);
  pyStr_str : forall s, pyStr (VStr s) = inr (VStr s)
}.

(** A subclass of [Variable]: its name, which stands for the class object,
    and its class attributes ([sectionName] and [optionName] are the
    attributes [section] and [option]).  [aliases] and [dependencies] are lists, the
    empty list for [None]; [check], when the dictionary [c] has one,
    answers with the message of the [AssertionError] it raises.  The
    dependencies are classes themselves, so that they form a finite tree. *)
#[warnings="-register-all"]
Inductive VariableClass := mkClass {
  className : string;
  sectionName : string;
  optionName : string;
  aliases : list string;
  parse : Value -> Result Value;
  check : option (Value -> option string);
  default : Value;
  dependencies : list VariableClass
}.

(** An instance of a variable class, with its value. *)
Record VariableInstance := mkVariable {
  classOf : VariableClass;
  value : Value
}.

(** ['%s > %s' % (section, option)]. *)
Definition variableName (variableClass : VariableClass) : string :=
  sectionName variableClass +:+ " > " +:+ optionName variableClass.

(** The double quote. *)
Definition quote : string := String (Ascii.ascii_of_nat 34) EmptyString.

(** [Variable.__init__(self, variableStore, value)].  A blank value gives
    way to the parsed default, or to [compute()] when the default is
    [None]; [compute] is the method of [Variable], which returns the
    default.  No class of the sources overrides it; a subclass that does,
    and that reads other variables of the store from it, is outside this
    model.  A check that fails turns into a [VariableError]. *)
Definition newVariable (variableClass : VariableClass) (given : Value) : Result VariableInstance :=
  let* v :=
    if isBlank given then
      if isNone (default variableClass) then inr (default variableClass)
      else parse variableClass (default variableClass)
    else parse variableClass given in
  match check variableClass with
  | Some validate =>
      match validate v with
      | Some error =>
          raise (VariableError
                   (quote +:+ variableName variableClass +:+ quote +:+ " " +:+ error))
      | None => inr (mkVariable variableClass v)
      end
  | None => inr (mkVariable variableClass v)
  end.

(** *** [validateVariableClasses] *)

(** The three exceptions of [validateVariableClasses], with the names of
    the classes in place of the classes. *)
Inductive ValidationError :=
  | EmptyVariableName (variableClass : string)
  | DuplicateVariableName (name first second : string)
  | DuplicateVariableAlias (alias first second : string).

(** The inner loop over the aliases of one class. *)
Fixpoint validateAliases (variableClass : VariableClass) (variableAliases : list string)
    (variableClassByAlias : gmap string string) : ValidationError + gmap string string :=
  match variableAliases with
  | [] => inr variableClassByAlias
  | variableAlias :: rest =>
      match variableClassByAlias !! variableAlias with
      | Some first =>
          inl (DuplicateVariableAlias variableAlias first (className variableClass))
      | None =>
          validateAliases variableClass rest
            (<[variableAlias := className variableClass]> variableClassByAlias)
      end
  end.

(** The loop over the classes. *)
Fixpoint validateFrom (variableClasses : list VariableClass)
    (variableClassByName variableClassByAlias : gmap string string)
    : ValidationError + unit :=
  match variableClasses with
  | [] => inr tt
  | variableClass :: rest =>
      if PyString.isEmpty (sectionName variableClass) || PyString.isEmpty (optionName variableClass)
      then inl (EmptyVariableName (className variableClass))
      else
        let name := variableName variableClass in
        match variableClassByName !! name with
        | Some first => inl (DuplicateVariableName name first (className variableClass))
        | None =>
            match validateAliases variableClass (aliases variableClass)
                    variableClassByAlias with
            | inl e => inl e
            | inr variableClassByAlias' =>
                validateFrom rest
                  (<[name := className variableClass]> variableClassByName)
                  variableClassByAlias'
            end
        end
  end.

(** [validateVariableClasses(variableClasses)]. *)
Definition validateVariableClasses (variableClasses : list VariableClass)
    : ValidationError + unit :=
  validateFrom variableClasses ∅ ∅.

(** *** [extractVariableValue] *)

(** The value of the first alias that is a key of the dictionary. *)
Fixpoint firstAlias (valueByOptionBySection : gmap string Value)
    (variableAliases : list string) : option Value :=
  match variableAliases with
  | [] => None
  | variableAlias :: rest =>
      match valueByOptionBySection !! variableAlias with
      | Some v => Some v
      | None => firstAlias valueByOptionBySection rest
      end
  end.

(** [text in s] on strings. *)
Definition isSubstring (text s : string) : bool :=
  match String.index 0 text s with
  | Some _ => true
  | None => false
  end.

(** The value under the section and the option, if both are there.  The
    entry of the section is meant to be a dictionary; in a string Python
    looks for the option as a substring and cannot index with it, and it
    cannot look into [None] or a number. *)
Definition sectionValue (valueByOptionBySection : gmap string Value)
    (variableClass : VariableClass) : Result (option Value) :=
  match valueByOptionBySection !! sectionName variableClass with
  | None => inr None
  | Some (VDict valueByOption) => inr (valueByOption !! optionName variableClass)
  | Some (VStr s) =>
      if isSubstring (optionName variableClass) s then raise TypeError else inr None
  | Some _ => raise TypeError
  end.

(** [extractVariableValue(valueByOptionBySection, variableClass,
    variableStore)]; of the parent store only its presence matters. *)
Definition extractVariableValue (valueByOptionBySection : gmap string Value)
    (variableClass : VariableClass) (hasParent : bool) : Result (bool * Value) :=
  match firstAlias valueByOptionBySection (aliases variableClass) with
  | Some v => inr (true, v)
  | None =>
      let* found := sectionValue valueByOptionBySection variableClass in
      match found with
      | Some v => inr (true, v)
      | None =>
          if hasParent || isNone (default variableClass) then inr (false, VNone)
          else inr (true, VNone)
      end
  end.

(** *** [VariableStore] *)

Module Store.

(** A store: its cache [variableByClass], keyed by the class, and its
    parent store.  A store owns its parent here: what a lookup caches in
    the parent is part of the store that the lookup returns. *)
#[warnings="-register-all"]
Inductive t := mk {
  variableByClass : gmap string VariableInstance;
  variableStore : option t
}.

(** [self.has(variableClasses)]: one of the classes, or one of the classes
    they depend on, is in the cache. *)
Fixpoint hasClass (cache : gmap string VariableInstance) (variableClass : VariableClass) : bool :=
  bool_decide (is_Some (cache !! className variableClass))
  || existsb (hasClass cache) (dependencies variableClass).

Definition has (self : t) (variableClasses : list VariableClass) : bool :=
  existsb (hasClass (variableByClass self)) variableClasses.

(** [self.set(variableClass, value)]. *)
Definition set (self : t) (variableClass : VariableClass) (given : Value) : Result t :=
  let* variable := newVariable variableClass given in
  inr (mk (<[className variableClass := variable]> (variableByClass self))
          (variableStore self)).

(** [self.getVariable(variableClass)], with the store as the lookup leaves
    it. *)
Fixpoint getVariable (self : t) (variableClass : VariableClass) : Result (VariableInstance * t) :=
  match self with
  | mk cache parent =>
      match cache !! className variableClass with
      | Some variable => inr (variable, self)
      | None =>
          let* (variable, parent') :=
            if match dependencies variableClass with [] => false | _ :: _ => true end
               && existsb (hasClass cache) (dependencies variableClass)
            then
              let* variable := newVariable variableClass VNone in
              inr (variable, parent)
            else
              match parent with
              | Some store =>
                  let* (variable, store') := getVariable store variableClass in
                  inr (variable, Some store')
              | None =>
                  raise (VariableError ("Unable to get " +:+ className variableClass))
              end in
          inr (variable, mk (<[className variableClass := variable]> cache) parent')
      end
  end.

(** [self.get(variableClass)]. *)
Definition get (self : t) (variableClass : VariableClass) : Result (Value * t) :=
  let* (variable, self') := getVariable self variableClass in
  inr (value variable, self').

(** Whether the lookup finds an answer: a store answers from its cache,
    by computing anew when it holds one of the dependencies, or through
    its parent. *)
Fixpoint answers (self : t) (variableClass : VariableClass) : bool :=
  match self with
  | mk cache parent =>
      bool_decide (is_Some (cache !! className variableClass))
      || existsb (hasClass cache) (dependencies variableClass)
      || match parent with
         | Some store => answers store variableClass
         | None => false
         end
  end.

(** What the constructor can raise: the exception of the validation, or an
    exception of a parser or a check. *)
Inductive Failure :=
  | Invalid (e : ValidationError)
  | Raised (e : Exception).

(** The loop of the constructor that fills the cache. *)
Fixpoint populate (valueByOptionBySection : gmap string Value) (hasParent : bool)
    (self : t) (variableClasses : list VariableClass) : Result t :=
  match variableClasses with
  | [] => inr self
  | variableClass :: rest =>
      let* (storeInCache, given) :=
        extractVariableValue valueByOptionBySection variableClass hasParent in
      let* self' := if storeInCache : bool then set self variableClass given else inr self in
      populate valueByOptionBySection hasParent self' rest
  end.

(** [VariableStore(valueByOptionBySection, variableStore, state)] for a
    subclass that declares its classes, as the one of [modKruskal] does,
    and no modules to scan.  The empty dictionary stands for [None]. *)
Definition new (variableClasses aggregateClasses summaryClasses : list VariableClass)
    (valueByOptionBySection : gmap string Value) (variableStore : option t)
    : Failure + t :=
  match validateVariableClasses (variableClasses ++ aggregateClasses ++ summaryClasses) with
  | inl e => inl (Invalid e)
  | inr _ =>
      match populate valueByOptionBySection
              (match variableStore with Some _ => true | None => false end)
              (mk ∅ variableStore) variableClasses with
      | inl e => inl (Raised e)
      | inr self => inr self
      end
  end.

End Store.

(** *** The variables of [modKruskal] *)

Section ModKruskalVariables.

Context `{Builtins}.

Definition MinimumNodeCountPerSubnetwork : VariableClass :=
  mkClass "MinimumNodeCountPerSubnetwork" "algorithm"
    "minimum node count per subnetwork" [] pyInt None (VInt 2) [].

Definition MaximumNearestNeighborCount : VariableClass :=
  mkClass "MaximumNearestNeighborCount" "algorithm"
    "maximum nearest neighbor count" [] pyInt None (VInt 5) [].

Definition ExistingNetworks : VariableClass :=
  mkClass "ExistingNetworks" "network" "existing networks" [] pyStr None
    (VStr EmptyString) [].

(** [VariableStore.variableClasses] of [modKruskal]. *)
Definition variableClasses : list VariableClass :=
  [MinimumNodeCountPerSubnetwork; MaximumNearestNeighborCount; ExistingNetworks].




End ModKruskalVariables.

(** *** [gatherVariables] *)

(** The names of a list of classes, as a set. *)
Definition classNames (variableClasses : list VariableClass) : gset string :=
  list_to_set (map className variableClasses).

(** The [while] loop of [gatherVariables].  [pop()] takes the last class
    of [nextClasses] and [extend] appends.  The two sets hold classes,
    here their names.  The loop runs once for every class in the trees of
    dependencies under [nextClasses]; [fuel] bounds the number of rounds. *)
Fixpoint gatherFrom (fuel : nat) (nextClasses : list VariableClass)
    (variableClasses rootClasses : gset string) : option (gset string * gset string) :=
  match rev nextClasses with
  | [] => Some (variableClasses, rootClasses)
  | variableClass :: before =>
      match fuel with
      | O => None
      | S fuel' =>
          let variableClasses' := {[className variableClass]} ∪ variableClasses in
          match dependencies variableClass with
          | [] => gatherFrom fuel' (rev before) variableClasses' rootClasses
          | _ :: _ =>
              gatherFrom fuel'
                (rev before ++ dependencies variableClass)
                (variableClasses' ∪ classNames (dependencies variableClass))
                (rootClasses ∖ classNames (dependencies variableClass))
          end
      end
  end.

(** The number of classes in the tree of dependencies under a class. *)
Fixpoint countClasses (variableClass : VariableClass) : nat :=
  S (list_sum (map countClasses (dependencies variableClass))).

(** [gatherVariables(modelClass)], for the three lists of classes of the
    model; the empty list stands for [None]. *)
Definition gatherVariables (variableClasses aggregateClasses summaryClasses : list VariableClass)
    : option (gset string * gset string) :=
  let nextClasses := variableClasses ++ aggregateClasses ++ summaryClasses in
  gatherFrom (list_sum (map countClasses nextClasses)) nextClasses ∅
    (classNames nextClasses).

(** *** Vocabulary of the properties of stores *)

(** A class has a name when its section and its option are not empty. *)
Definition named (variableClass : VariableClass) : Prop :=
  PyString.isEmpty (sectionName variableClass) = false
  /\ PyString.isEmpty (optionName variableClass) = false.

(** The classes that a class depends on, itself included. *)
Inductive dependsOn : VariableClass -> VariableClass -> Prop :=
  | dependsOn_itself variableClass : dependsOn variableClass variableClass
  | dependsOn_through variableClass dependency other :
      dependency ∈ dependencies variableClass ->
      dependsOn dependency other ->
      dependsOn variableClass other.

(** A class under one of the given classes has the name. *)
Definition reaches (variableClasses : list VariableClass) (name : string) : Prop :=
  exists variableClass other,
    variableClass ∈ variableClasses
    /\ dependsOn variableClass other
    /\ className other = name.

(** A class under one of the given classes has a dependency of the name. *)
Definition dependedOn (variableClasses : list VariableClass) (name : string) : Prop :=
  exists variableClass other dependency,
    variableClass ∈ variableClasses
    /\ dependsOn variableClass other
    /\ dependency ∈ dependencies other
    /\ className dependency = name.


(** *** Example stores *)

(** The laws of [Builtins] have a model: [int] and [str] cut down to the
    values of their own type.  On [None] and on a dictionary [int] raises
    a [TypeError]; what the builtins make of the other values is not
    modelled, and this instance raises there as well.  The examples apply
    it to values of the own type only. *)
Definition ownTypeBuiltins : Builtins :=
  {| pyInt := fun v => match v with VInt _ => inr v | _ => raise TypeError end;
     pyStr := fun v => match v with VStr _ => inr v | _ => raise TypeError end;
     pyInt_int := fun _ => eq_refl;
     pyStr_str := fun _ => eq_refl |}.



(** A store that holds one variable, and a store that has it for parent
    and holds none. *)
Definition exampleParent : Store.t :=
  Store.mk
    {[ "MaximumNearestNeighborCount" :=
         mkVariable (@MaximumNearestNeighborCount ownTypeBuiltins) (VInt 7) ]}
    None.

Definition exampleChild : Store.t := Store.mk ∅ (Some exampleParent).


End Variables.

(** * Vocabulary of the properties *)

(** Both endpoints of the segment pass the affordability test. *)
Definition bothQualify (st : State) (segment : Segment.t) : bool :=
  qualifies (weights st) (Segment.node1 segment) (Segment.getWeight segment)
  && qualifies (weights st) (Segment.node2 segment) (Segment.getWeight segment).

(** Two subnets share no node. *)
Definition disjointNodes (a b : Subnet.t) : Prop :=
  forall n, n ∈ Subnet.nodes a -> n ∈ Subnet.nodes b -> False.

(** No node belongs to two subnets of the list. *)
Fixpoint disjointSubnets (l : list Subnet.t) : Prop :=
  match l with
  | [] => True
  | s :: l' => Forall (disjointNodes s) l' /\ disjointSubnets l'
  end.

(** The subnets of a network are components: they share no node. *)
Definition partitioned (net0 : Network.t) : Prop := disjointSubnets (Network.subnets net0).

(** All the nodes of one subnet hold the same weight. *)
Definition homogeneous (net0 : Network.t) (w : Weights) : Prop :=
  forall s, s ∈ Network.subnets net0 ->
  forall a b, a ∈ Subnet.nodes s -> b ∈ Subnet.nodes s -> (w a == w b)%Q.


(** A real node whose weight is negative lies in a subnet that holds a
    fixed node. *)
Definition debtOnlyWithFixed (net0 : Network.t) (w : Weights) : Prop :=
  forall n, 0 <= Node.getID n -> (w n < 0)%Q ->
  exists s, s ∈ Network.subnets net0 /\ n ∈ Subnet.nodes s
            /\ exists f, f ∈ Subnet.nodes s /\ Node.getID f < 0.

(** * A worked example *)

(** A taxicab geometry over the rationals, for running the definitions. *)
Definition taxicab (a b : Coordinates) : Q := (Qabs (a.1 - b.1) + Qabs (a.2 - b.2))%Q.

Definition rowsByDistance (data : list Coordinates) (x : Coordinates) : list nat :=
  sorted (fun i => taxicab (nth i data (0%Q, 0%Q)) x) (seq 0 (length data)).

Definition taxicabGeometry : Geometry :=
  {| computeCost := fun _ _ _ => taxicab; nearestRows := fun _ => rowsByDistance |}.

Definition noExistingNetwork : ExistingNetwork :=
  {| archiveAt := fun _ _ => NoArchive;
     transform_point := fun _ _ c => c;
     project := fun _ _ => [] |}.

(** Exact arithmetic: the weights of the examples are integers and halves,
    whose sums and differences are floats. *)
Definition exactArithmetic : FloatArithmetic :=
  {| round := fun q => q;
     round_monotone := fun _ _ H => H;
     round_zero := Qeq_refl 0 |}.

(** Arithmetic on a grid of quarters, rounding down: an arithmetic that
    rounds, as floats do on their finer and uneven grid. *)
Definition quarters (q : Q) : Q := (inject_Z (Qfloor (q * 4)) / 4)%Q.

Definition quarterArithmetic : FloatArithmetic.
Proof.
  refine {| round := quarters |}.
  - intros x y Hxy. unfold quarters.
    apply Qmult_le_compat_r; [|by vm_compute].
    rewrite <- Zle_Qle. apply Qfloor_resp_le.
    apply Qmult_le_compat_r; [done|by vm_compute].
  - by vm_compute.
Defined.

(** Three nodes in a row with a budget of 10, a remote node with a budget
    of 1, and a real node with a budget of 1/2 next to a fixed node. *)
Definition nodeA : Node.t := Node.mk 1 (0, 0)%Q.
Definition nodeB : Node.t := Node.mk 2 (1, 0)%Q.
Definition nodeC : Node.t := Node.mk 3 (2, 0)%Q.
Definition nodeD : Node.t := Node.mk 4 (10, 10)%Q.
Definition nodeR : Node.t := Node.mk 5 (5, 5)%Q.
Definition nodeF : Node.t := Node.mk (-1) (0, 5)%Q.

Definition exampleWeights : Weights :=
  fun n =>
    if Node.getID n <? 0 then 0%Q
    else if Node.getID n =? 4 then 1%Q
    else if Node.getID n =? 5 then (1 # 2)%Q
    else 10%Q.

Definition segmentAB : Segment.t := Segment.mk nodeA nodeB 1 false.
Definition segmentBC : Segment.t := Segment.mk nodeB nodeC 1 false.
Definition segmentCD : Segment.t := Segment.mk nodeC nodeD 18 false.
Definition segmentFR : Segment.t := Segment.mk nodeF nodeR 5 false.

Definition exampleSegments : list Segment.t :=
  [segmentCD; segmentFR; segmentAB; segmentBC].

Definition exampleNetwork : Network.t :=
  Network.mk (Subnet.mk [nodeF] [] :: map Subnet.singleton [nodeA; nodeB; nodeC; nodeD; nodeR]) [].

Definition exampleStart : State := mkState exampleNetwork exampleWeights [].

(** The nodes of the scenario with four demand nodes, two neighbours per
    node and at least two nodes per subnetwork. *)
Definition scenarioNodes : list Node.t := [nodeA; nodeB; nodeC; nodeD].

Definition scenarioStore (k : Entry Z) : VariableStore :=
  mkStore (mkValues Missing k Missing) [] None.

(** The build of the scenario. *)
Definition scenarioBuild : Result State :=
  @buildNetworkFromNodes taxicabGeometry noExistingNetwork exactArithmetic
    (scenarioStore (Given 2)) scenarioNodes "+proj=utm +units=m" exampleWeights.

Definition scenarioResult : State :=
  match scenarioBuild with
  | inr result => result
  | inl _ => exampleStart
  end.

(** A segment from the real node A to the fixed node F, and a segment
    between A and B whose cost is no multiple of a quarter. *)
Definition segmentAF : Segment.t := Segment.mk nodeA nodeF 5 false.
Definition segmentAH : Segment.t := Segment.mk nodeA nodeB (1 # 3) false.


(** An existing network of one road that starts on the node A, from
    (0, 0) to (0, 5), the store that configures it, and the network that
    [generateSegments] makes of it for the nodes of the scenario. *)
Definition crossingRoad : ExistingNetwork :=
  {| archiveAt := fun _ _ => Shapefile "+proj=utm +units=m" [((0, 0)%Q, (0, 5)%Q)];
     transform_point := fun _ _ c => c;
     project := fun _ _ => [] |}.

Definition roadStore : VariableStore :=
  mkStore (mkValues Missing (Given 2) (Given "roads.zip")) [] (Some ["/data"]).

Definition crossingNetwork : Network.t :=
  Network.mk
    (map Subnet.singleton scenarioNodes
     ++ [Subnet.ofSegments [Segment.mk nodeA nodeF 5 true]]) [].

(** Weights with a debt of 91 on the fixed nodes, and weights that leave
    A with 1. *)
Definition indebtedWeights : Weights :=
  fun n => if Node.getID n <? 0 then (-91)%Q else 10%Q.
Definition poorWeights : Weights :=
  fun n => if Node.getID n <? 0 then 0%Q else if Node.getID n =? 1 then 1%Q else 10%Q.
Definition segmentBF : Segment.t := Segment.mk nodeB nodeF 6 false.
Definition segmentAB5 : Segment.t := Segment.mk nodeA nodeB 5 false.
Definition segmentFC : Segment.t := Segment.mk nodeF nodeC 5 false.

(** An existing network of one road, from (0, 5) to (5, 5); the
    projection connects every node to the western end of the road. *)
Definition roadNetwork : ExistingNetwork :=
  {| archiveAt := fun _ _ => Shapefile "+proj=longlat" [((0, 5)%Q, (5, 5)%Q)];
     transform_point := fun _ _ c => c;
     project := fun _ nodes =>
       map (fun n =>
              Segment.mk n nodeF
                (taxicab (Node.getCoordinates n) (Node.getCoordinates nodeF)) false)
           nodes |}.

(** * Properties *)

(** ** Weights *)

Lemma Qge_bool_iff (a b : Q) : Qge_bool a b = true <-> (b <= a)%Q.
Proof. unfold Qge_bool. apply Qle_bool_iff. Qed.

Lemma Qlt_bool_iff (a b : Q) : Qlt_bool a b = true <-> (a < b)%Q.
Proof.
  unfold Qlt_bool. rewrite negb_true_iff, <- not_true_iff_false, Qle_bool_iff.
  split; [apply Qnot_le_lt | apply Qlt_not_le].
Qed.

Lemma Qlt_bool_false_iff (a b : Q) : Qlt_bool a b = false <-> (b <= a)%Q.
Proof.
  unfold Qlt_bool. rewrite negb_false_iff. apply Qle_bool_iff.
Qed.

Lemma qualifies_iff (w : Weights) (node : Node.t) (sWeight : Q) :
  qualifies w node sWeight = true <-> (sWeight <= w node)%Q \/ Node.getID node < 0.
Proof.
  unfold qualifies. rewrite orb_true_iff, Qge_bool_iff, Z.ltb_lt. tauto.
Qed.

Lemma setWeights_lookup (nodes : list Node.t) (w : Weights) (weight : Q) (n : Node.t) :
  setWeights w nodes weight n = if bool_decide (n ∈ nodes) then weight else w n.
Proof.
  unfold setWeights. revert w.
  induction nodes as [|x nodes IH]; intros w.
  - rewrite bool_decide_eq_false_2; [done | apply not_elem_of_nil].
  - cbn [fold_left]. rewrite IH. unfold setWeight.
    destruct (decide (n = x)) as [->|Hne].
    + rewrite (bool_decide_eq_true_2 (x ∈ x :: nodes)) by apply list_elem_of_here.
      by case_bool_decide.
    + rewrite (bool_decide_ext (n ∈ x :: nodes) (n ∈ nodes)); [done|].
      rewrite elem_of_cons. split; [by intros [?|?] | by right].
Qed.

Lemma setWeights_member (nodes : list Node.t) (w : Weights) (weight : Q) (n : Node.t) :
  n ∈ nodes -> setWeights w nodes weight n = weight.
Proof. intros Hn. rewrite setWeights_lookup. by rewrite bool_decide_eq_true_2. Qed.

Lemma setWeights_other (nodes : list Node.t) (w : Weights) (weight : Q) (n : Node.t) :
  n ∉ nodes -> setWeights w nodes weight n = w n.
Proof. intros Hn. rewrite setWeights_lookup. by rewrite bool_decide_eq_false_2. Qed.

(** ** The loop body, case by case *)

Lemma processSegment_unqualified `{FloatArithmetic} (st : State) (segment : Segment.t) :
  bothQualify st segment = false -> processSegment st segment = st.
Proof.
  unfold bothQualify, qualifies, processSegment. simpl. by intros ->.
Qed.

Lemma processSegment_cycle `{FloatArithmetic} (st : State) (segment : Segment.t) (net' : Network.t) :
  bothQualify st segment = true ->
  Network.addSegment (net st) segment = (net', None) ->
  processSegment st segment = mkState net' (weights st) (calls st ++ [segment]).
Proof.
  unfold bothQualify, qualifies, processSegment. simpl. by intros -> ->.
Qed.

Lemma processSegment_merge `{FloatArithmetic} (st : State) (segment : Segment.t)
    (net' : Network.t) (subnet : Subnet.t) :
  bothQualify st segment = true ->
  Network.addSegment (net st) segment = (net', Some subnet) ->
  processSegment st segment =
    mkState net'
      (setWeights (weights st) (Subnet.cycleNodes subnet)
         (round (round (weights st (Segment.node1 segment)
                        + weights st (Segment.node2 segment))
                 - Segment.getWeight segment)%Q))
      (calls st ++ [segment]).
Proof.
  unfold bothQualify, qualifies, processSegment. simpl. by intros -> ->.
Qed.

Lemma processSegments_app `{FloatArithmetic} (st : State) (pre post : list Segment.t) :
  processSegments st (pre ++ post) = processSegments (processSegments st pre) post.
Proof. apply fold_left_app. Qed.

Lemma buildNetworkFromSegments_split `{FloatArithmetic} (segments : list Segment.t) (net0 : Network.t)
    (w : Weights) (pre post : list Segment.t) (segment : Segment.t) :
  sorted Segment.getWeight segments = pre ++ segment :: post ->
  buildNetworkFromSegments segments net0 w =
    processSegments (processSegment (processSegments (mkState net0 w []) pre) segment) post.
Proof.
  intros Hs. unfold buildNetworkFromSegments. rewrite Hs.
  by rewrite processSegments_app.
Qed.

(** ** [Network.addSegment] *)

Lemma addSegment_None (net0 net' : Network.t) (segment : Segment.t) :
  Network.addSegment net0 segment = (net', None) -> net' = net0.
Proof.
  unfold Network.addSegment. simpl.
  destruct (Network.sameSubnet _ _ _); congruence.
Qed.

Lemma addSegment_Some (net0 net' : Network.t) (segment : Segment.t) (subnet : Subnet.t) :
  Network.addSegment net0 segment = (net', Some subnet) ->
  Network.sameSubnet net0 (Segment.node1 segment) (Segment.node2 segment) = false
  /\ subnet = Subnet.merge segment (Network.subnetOf net0 (Segment.node1 segment))
                (Network.subnetOf net0 (Segment.node2 segment))
  /\ Network.subnets net' =
       subnet :: filter (fun s => Subnet.contains (Segment.node1 segment) s = false
                                  ∧ Subnet.contains (Segment.node2 segment) s = false)
                   (Network.subnets net0).
Proof.
  unfold Network.addSegment. simpl.
  destruct (Network.sameSubnet _ _ _); [congruence|].
  intros [= <- <-]. done.
Qed.

(** ** [sorted] is ascending, stable, and a permutation *)

Section SortedFacts.

Context {A : Type} (key : A -> Q).

Lemma insertByKey_Permutation (x : A) (l : list A) :
  insertByKey key x l ≡ₚ x :: l.
Proof.
  induction l as [|y l IH]; simpl; [done|].
  destruct (Qlt_bool (key y) (key x)); [|done].
  rewrite IH. apply Permutation_swap.
Qed.

Lemma sorted_Permutation (l : list A) : sorted key l ≡ₚ l.
Proof.
  induction l as [|x l IH]; simpl; [done|].
  rewrite insertByKey_Permutation. by rewrite IH.
Qed.

Lemma insertByKey_ascending (x : A) (l : list A) :
  StronglySorted (ascending key) l -> StronglySorted (ascending key) (insertByKey key x l).
Proof.
  induction l as [|y l IH]; simpl; intros Hl.
  - by repeat constructor.
  - apply StronglySorted_inv in Hl as [Hl Hy].
    destruct (Qlt_bool (key y) (key x)) eqn:Hlt.
    + constructor; [by apply IH|].
      rewrite insertByKey_Permutation. constructor; [|done].
      apply Qlt_bool_iff in Hlt. by apply Qlt_le_weak.
    + apply Qlt_bool_false_iff in Hlt.
      constructor; [by constructor|].
      constructor; [done|].
      eapply Forall_impl; [exact Hy|].
      intros z Hz. unfold ascending in *. by eapply Qle_trans.
Qed.

Lemma sorted_ascending (l : list A) : StronglySorted (ascending key) (sorted key l).
Proof.
  induction l as [|x l IH]; simpl; [constructor|].
  by apply insertByKey_ascending.
Qed.

Lemma insertByKey_withKey (q : Q) (x : A) (l : list A) :
  withKey key q (insertByKey key x l) = withKey key q (x :: l).
Proof.
  unfold withKey. induction l as [|y l IH]; simpl; [done|].
  destruct (Qlt_bool (key y) (key x)) eqn:Hlt; [|done].
  rewrite filter_cons, IH, !filter_cons.
  apply Qlt_bool_iff in Hlt.
  destruct (decide (Qeq_bool (key x) q = true)) as [Hx|Hx];
    destruct (decide (Qeq_bool (key y) q = true)) as [Hy|Hy]; try done.
  apply Qeq_bool_iff in Hx, Hy. rewrite Hx, Hy in Hlt.
  by apply Qlt_irrefl in Hlt.
Qed.

Lemma sorted_withKey (q : Q) (l : list A) : withKey key q (sorted key l) = withKey key q l.
Proof.
  induction l as [|x l IH]; simpl; [done|].
  rewrite insertByKey_withKey. unfold withKey in *.
  by rewrite !filter_cons, IH.
Qed.

Lemma withKey_cons (q : Q) (x : A) (l : list A) :
  withKey key q (x :: l)
  = if Qeq_bool (key x) q then x :: withKey key q l else withKey key q l.
Proof.
  unfold withKey. rewrite filter_cons.
  destruct (Qeq_bool (key x) q); by case_decide.
Qed.

Lemma withKey_head (x : A) (l : list A) :
  withKey key (key x) (x :: l) = x :: withKey key (key x) l.
Proof.
  rewrite withKey_cons.
  by rewrite (proj2 (Qeq_bool_iff (key x) (key x)) (Qeq_refl _)).
Qed.

Lemma withKey_elem_of (q : Q) (x : A) (l : list A) :
  x ∈ withKey key q l -> x ∈ l.
Proof. unfold withKey. by intros [_ ?]%list_elem_of_filter. Qed.

Lemma ascending_head (x y : A) (l : list A) :
  StronglySorted (ascending key) (x :: l) -> y ∈ x :: l -> (key x <= key y)%Q.
Proof.
  intros [_ Hx]%StronglySorted_inv [->|Hy]%elem_of_cons; [apply Qle_refl|].
  rewrite Forall_forall in Hx. by apply Hx.
Qed.

(** An ascending list is determined by the order of its elements of each
    key: every stable sort returns the list that [sorted] returns. *)
Lemma stable_ascending_unique (l1 l2 : list A) :
  StronglySorted (ascending key) l1 -> StronglySorted (ascending key) l2 ->
  (forall q, withKey key q l1 = withKey key q l2) -> l1 = l2.
Proof.
  revert l2. induction l1 as [|x l1 IH]; intros l2 H1 H2 Hstable.
  - destruct l2 as [|y l2]; [done|].
    specialize (Hstable (key y)). by rewrite withKey_head in Hstable.
  - destruct l2 as [|y l2].
    { specialize (Hstable (key x)). by rewrite withKey_head in Hstable. }
    assert (key x == key y)%Q as Hxy.
    { apply Qle_antisym.
      - apply (ascending_head x y l1 H1).
        apply (withKey_elem_of (key y)). rewrite Hstable, withKey_head. by left.
      - apply (ascending_head y x l2 H2).
        apply (withKey_elem_of (key x)). rewrite <- Hstable, withKey_head. by left. }
    assert (x = y) as <-.
    { specialize (Hstable (key x)). rewrite withKey_head, withKey_cons in Hstable.
      rewrite (proj2 (Qeq_bool_iff (key y) (key x))) in Hstable by (by symmetry).
      congruence. }
    f_equal. apply IH.
    + by apply StronglySorted_inv in H1 as [? _].
    + by apply StronglySorted_inv in H2 as [? _].
    + intros q. specialize (Hstable q). rewrite !withKey_cons in Hstable.
      destruct (Qeq_bool (key x) q); congruence.
Qed.

Lemma sorted_unique (l order : list A) :
  StronglySorted (ascending key) order ->
  (forall q, withKey key q order = withKey key q l) ->
  order = sorted key l.
Proof.
  intros Hasc Hstable. apply stable_ascending_unique; [done|apply sorted_ascending|].
  intros q. by rewrite Hstable, sorted_withKey.
Qed.

End SortedFacts.

(** ** Subnets as a partition *)

Lemma disjointSubnets_filter (P : Subnet.t -> Prop) `{!forall s, Decision (P s)}
    (l : list Subnet.t) :
  disjointSubnets l -> disjointSubnets (filter P l).
Proof.
  induction l as [|s l IH]; simpl; [done|].
  intros [Hs Hl]. rewrite filter_cons.
  destruct (decide (P s)); [|by apply IH].
  simpl. split; [|by apply IH].
  rewrite Forall_forall in Hs |- *.
  intros t [_ Ht]%list_elem_of_filter. by apply Hs.
Qed.

Lemma disjointSubnets_distinct (l : list Subnet.t) (s t : Subnet.t) :
  disjointSubnets l -> s ∈ l -> t ∈ l -> s <> t -> disjointNodes s t.
Proof.
  induction l as [|x l IH]; simpl.
  - intros _ Hs. by apply elem_of_nil in Hs.
  - intros [Hx Hl] Hs Ht Hne. rewrite Forall_forall in Hx.
    apply elem_of_cons in Hs as [->|Hs]; apply elem_of_cons in Ht as [->|Ht].
    + done.
    + by apply Hx.
    + intros n Hn Hn'. by apply (Hx s Hs n).
    + by apply IH.
Qed.

Lemma partitioned_same (net0 : Network.t) (s t : Subnet.t) (n : Node.t) :
  partitioned net0 -> s ∈ Network.subnets net0 -> t ∈ Network.subnets net0 ->
  n ∈ Subnet.nodes s -> n ∈ Subnet.nodes t -> s = t.
Proof.
  intros Hp Hs Ht Hns Hnt.
  destruct (decide (s = t)) as [|Hne]; [done|].
  by destruct (disjointSubnets_distinct _ _ _ Hp Hs Ht Hne n).
Qed.

Lemma findSubnet_Some (net0 : Network.t) (n : Node.t) (i : nat) (s : Subnet.t) :
  Network.findSubnet net0 n = Some (i, s) ->
  s ∈ Network.subnets net0 /\ n ∈ Subnet.nodes s.
Proof.
  unfold Network.findSubnet. intros (Hi & Hn & _)%list_find_Some.
  split; [by eapply list_elem_of_lookup_2 | done].
Qed.

Lemma findSubnet_None (net0 : Network.t) (n : Node.t) (s : Subnet.t) :
  Network.findSubnet net0 n = None -> s ∈ Network.subnets net0 -> n ∉ Subnet.nodes s.
Proof.
  unfold Network.findSubnet. rewrite list_find_None, Forall_forall. auto.
Qed.

Lemma subnetOf_cases (net0 : Network.t) (n : Node.t) :
  (Network.subnetOf net0 n ∈ Network.subnets net0 /\ n ∈ Subnet.nodes (Network.subnetOf net0 n))
  \/ (Network.subnetOf net0 n = Subnet.singleton n
      /\ forall s, s ∈ Network.subnets net0 -> n ∉ Subnet.nodes s).
Proof.
  unfold Network.subnetOf.
  destruct (Network.findSubnet net0 n) as [[i s]|] eqn:Hf.
  - left. by apply findSubnet_Some in Hf.
  - right. split; [done|]. intros s. by apply findSubnet_None.
Qed.

Lemma subnetOf_member (net0 : Network.t) (n : Node.t) :
  n ∈ Subnet.nodes (Network.subnetOf net0 n).
Proof.
  destruct (subnetOf_cases net0 n) as [[_ Hn]|[-> _]]; [done|].
  apply list_elem_of_here.
Qed.

Lemma subnetOf_holder (net0 : Network.t) (s : Subnet.t) (n : Node.t) :
  partitioned net0 -> s ∈ Network.subnets net0 -> n ∈ Subnet.nodes s ->
  Network.subnetOf net0 n = s.
Proof.
  intros Hp Hs Hn.
  destruct (subnetOf_cases net0 n) as [[Hin Hmem]|[_ Hnone]].
  - by eapply partitioned_same.
  - by destruct (Hnone s Hs).
Qed.

(** The members of the union are the members of the endpoints' subnets. *)
Lemma merge_nodes (segment : Segment.t) (a b : Subnet.t) (n : Node.t) :
  n ∈ Subnet.nodes (Subnet.merge segment a b) <-> n ∈ Subnet.nodes a \/ n ∈ Subnet.nodes b.
Proof. simpl. apply list_elem_of_union. Qed.

(** [cycleNodes] yields the real members. *)
Lemma elem_of_cycleNodes (s : Subnet.t) (n : Node.t) :
  n ∈ Subnet.cycleNodes s <-> n ∈ Subnet.nodes s /\ 0 <= Node.getID n.
Proof.
  unfold Subnet.cycleNodes, Node.isFake.
  rewrite list_elem_of_filter, Z.ltb_ge. tauto.
Qed.

Lemma subnetOf_disjoint_other (net0 : Network.t) (n : Node.t) (t : Subnet.t) :
  partitioned net0 -> t ∈ Network.subnets net0 -> n ∉ Subnet.nodes t ->
  disjointNodes (Network.subnetOf net0 n) t.
Proof.
  intros Hp Ht Hn.
  destruct (subnetOf_cases net0 n) as [[Hin Hmem]|[-> _]].
  - apply (disjointSubnets_distinct _ _ _ Hp Hin Ht). by intros <-.
  - intros x Hx%list_elem_of_singleton. by subst.
Qed.

Lemma contains_false (n : Node.t) (s : Subnet.t) :
  Subnet.contains n s = false <-> n ∉ Subnet.nodes s.
Proof. unfold Subnet.contains. apply bool_decide_eq_false. Qed.

Lemma merged_disjoint_others (net0 : Network.t) (segment : Segment.t) (t : Subnet.t) :
  partitioned net0 ->
  t ∈ filter (fun s => Subnet.contains (Segment.node1 segment) s = false
                       ∧ Subnet.contains (Segment.node2 segment) s = false)
        (Network.subnets net0) ->
  disjointNodes
    (Subnet.merge segment (Network.subnetOf net0 (Segment.node1 segment))
       (Network.subnetOf net0 (Segment.node2 segment)))
    t.
Proof.
  intros Hp [[H1 H2] Ht]%list_elem_of_filter.
  apply contains_false in H1, H2.
  intros x [Hx|Hx]%merge_nodes Hxt.
  - by apply (subnetOf_disjoint_other net0 _ t Hp Ht H1 x).
  - by apply (subnetOf_disjoint_other net0 _ t Hp Ht H2 x).
Qed.

Lemma addSegment_partitioned (net0 net' : Network.t) (segment : Segment.t)
    (r : option Subnet.t) :
  partitioned net0 -> Network.addSegment net0 segment = (net', r) -> partitioned net'.
Proof.
  intros Hp Hadd. destruct r as [subnet|].
  - apply addSegment_Some in Hadd as (_ & -> & Hsub).
    unfold partitioned. rewrite Hsub. simpl. split.
    + apply Forall_forall. intros t Ht. by apply merged_disjoint_others.
    + by apply disjointSubnets_filter.
  - by apply addSegment_None in Hadd as ->.
Qed.

Lemma processSegment_partitioned `{FloatArithmetic} (st : State) (segment : Segment.t) :
  partitioned (net st) -> partitioned (net (processSegment st segment)).
Proof.
  intros Hp.
  destruct (bothQualify st segment) eqn:Hq.
  - destruct (Network.addSegment (net st) segment) as [net' [subnet|]] eqn:Hadd.
    + rewrite (processSegment_merge _ _ _ _ Hq Hadd). simpl.
      by eapply addSegment_partitioned.
    + rewrite (processSegment_cycle _ _ _ Hq Hadd). simpl.
      by eapply addSegment_partitioned.
  - by rewrite processSegment_unqualified.
Qed.

(** An invariant of the loop body holds after every prefix of the pass. *)
Lemma processSegments_invariant `{FloatArithmetic} (I : State -> Prop) (order : list Segment.t) (st : State) :
  (forall st' segment, segment ∈ order -> I st' -> I (processSegment st' segment)) ->
  I st -> I (processSegments st order).
Proof.
  revert st. induction order as [|segment order IH]; intros st Hstep Hst; [done|].
  simpl. apply IH.
  - intros st' s Hs. apply Hstep. by right.
  - apply Hstep; [by left | done].
Qed.

(** ** The network at the start of the pass *)

Lemma sameCoordinates_refl (c : Coordinates) : sameCoordinates c c = true.
Proof.
  unfold sameCoordinates. apply andb_true_iff. split; apply Qeq_bool_iff; reflexivity.
Qed.

Lemma dedupByCoordinates_NoDup (l : list Node.t) :
  NoDup (SegmentFactory.dedupByCoordinates l).
Proof.
  induction l as [|n l IH]; simpl; [constructor|].
  apply NoDup_cons. split; [|by apply NoDup_filter].
  intros [Hn _]%list_elem_of_filter. by rewrite sameCoordinates_refl in Hn.
Qed.

Lemma singletons_disjoint (l : list Node.t) :
  NoDup l -> disjointSubnets (map Subnet.singleton l).
Proof.
  induction l as [|n l IH]; simpl; [done|].
  intros [Hn Hl]%NoDup_cons. split; [|by apply IH].
  apply Forall_forall. intros t (m & -> & Hm)%list_elem_of_fmap.
  intros x Hx%list_elem_of_singleton Hx'%list_elem_of_singleton. by subst.
Qed.

(** Without an existing network the pass starts from singletons: the
    subnets share no node and each is homogeneous, whatever the weights. *)
Lemma generateSegments_initial `{Geometry} `{ExistingNetwork}
    (self : VariableStore) (nodes : list Node.t) (computeDistance : DistanceMetric)
    (proj4 : string) (segments : list Segment.t) (net0 : Network.t) (w : Weights) :
  getExistingNetworks self = EmptyString ->
  generateSegments self nodes computeDistance proj4 = inr (segments, net0) ->
  partitioned net0 /\ homogeneous net0 w.
Proof.
  intros Hpath. unfold generateSegments. rewrite Hpath.
  rewrite bool_decide_eq_true_2 by done. simpl.
  destruct (KDTree.new _ _) as [e|kdTree]; [done|]. simpl.
  destruct (candidatesPerNode _ _ _ _ _ _) as [e|candidates]; [done|]. simpl.
  intros [= _ <-]. split.
  - unfold partitioned, Network.new. simpl. apply singletons_disjoint.
    unfold SegmentFactory.getNodes. apply NoDup_filter. simpl.
    apply dedupByCoordinates_NoDup.
  - intros s Hs a b Ha Hb. unfold Network.new in Hs. simpl in Hs.
    apply list_elem_of_fmap in Hs as (n & -> & _).
    apply list_elem_of_singleton in Ha, Hb. subst. reflexivity.
Qed.

(** ** Weight homogeneity *)



(** ** Nonnegative budgets *)

(** What is left of two budgets that both cover a nonnegative cost, when
    the cost is a float. *)
Lemma affordable_merge_nonnegative `{FloatArithmetic} (wA wB wS : Q) :
  (0 <= wS)%Q -> (round wS == wS)%Q -> (wS <= wA)%Q -> (wS <= wB)%Q ->
  (0 <= round (round (wA + wB) - wS))%Q.
Proof.
  intros Hcost Hfloat HA HB.
  assert (wS <= wA + wB)%Q as Hsum by lra.
  pose proof (round_monotone _ _ Hsum) as Hrounded.
  assert (0 <= round (wA + wB) - wS)%Q as Hrest by lra.
  pose proof (round_monotone _ _ Hrest) as Hresult.
  pose proof round_zero. lra.
Qed.

Lemma bothQualify_real (st : State) (segment : Segment.t) :
  bothQualify st segment = true ->
  0 <= Node.getID (Segment.node1 segment) -> 0 <= Node.getID (Segment.node2 segment) ->
  (Segment.getWeight segment <= weights st (Segment.node1 segment))%Q
  /\ (Segment.getWeight segment <= weights st (Segment.node2 segment))%Q.
Proof.
  unfold bothQualify. rewrite andb_true_iff, !qualifies_iff.
  intros [[?|?] [?|?]] ? ?; split; (done || lia).
Qed.

Lemma processSegment_debtOnlyWithFixed `{FloatArithmetic} (st : State) (segment : Segment.t) :
  (0 <= Segment.getWeight segment)%Q ->
  (round (Segment.getWeight segment) == Segment.getWeight segment)%Q ->
  partitioned (net st) -> debtOnlyWithFixed (net st) (weights st) ->
  debtOnlyWithFixed (net (processSegment st segment)) (weights (processSegment st segment)).
Proof.
  intros Hcost Hfloat Hp Hd.
  destruct (bothQualify st segment) eqn:Hq; [|by rewrite processSegment_unqualified].
  destruct (Network.addSegment (net st) segment) as [net' [subnet|]] eqn:Hadd.
  - rewrite (processSegment_merge _ _ _ _ Hq Hadd). simpl.
    apply addSegment_Some in Hadd as (_ & Hsubnet & Hsubnets).
    assert (Segment.node1 segment ∈ Subnet.nodes subnet) as Hn1.
    { rewrite Hsubnet. apply merge_nodes. left. apply subnetOf_member. }
    assert (Segment.node2 segment ∈ Subnet.nodes subnet) as Hn2.
    { rewrite Hsubnet. apply merge_nodes. right. apply subnetOf_member. }
    intros n Hreal Hneg. rewrite Hsubnets.
    destruct (decide (n ∈ Subnet.nodes subnet)) as [Hin|Hout].
    + rewrite setWeights_member in Hneg by (by apply elem_of_cycleNodes).
      exists subnet. split; [by left|]. split; [done|].
      destruct (decide (Node.getID (Segment.node1 segment) < 0)) as [|Hreal1]; [by eauto|].
      destruct (decide (Node.getID (Segment.node2 segment) < 0)) as [|Hreal2]; [by eauto|].
      destruct (bothQualify_real st segment Hq) as [HA HB]; [lia..|].
      pose proof (affordable_merge_nonnegative _ _ _ Hcost Hfloat HA HB) as Hge.
      by destruct (Qlt_not_le _ _ Hneg).
    + rewrite setWeights_other in Hneg by (by intros [? _]%elem_of_cycleNodes).
      destruct (Hd n Hreal Hneg) as (s & Hs & Hns & Hfixed).
      exists s. split; [|done]. right.
      apply list_elem_of_filter. split; [|done].
      split; apply contains_false; intros Hend; apply Hout;
        rewrite Hsubnet; apply merge_nodes.
      * left. by rewrite (subnetOf_holder _ s _ Hp Hs Hend).
      * right. by rewrite (subnetOf_holder _ s _ Hp Hs Hend).
  - rewrite (processSegment_cycle _ _ _ Hq Hadd). simpl.
    by apply addSegment_None in Hadd as ->.
Qed.

Lemma real_subnet_nonnegative (net0 : Network.t) (w : Weights) (s : Subnet.t) (n : Node.t) :
  partitioned net0 -> debtOnlyWithFixed net0 w ->
  s ∈ Network.subnets net0 ->
  (forall m, m ∈ Subnet.nodes s -> 0 <= Node.getID m) ->
  n ∈ Subnet.nodes s -> (0 <= w n)%Q.
Proof.
  intros Hp Hd Hs Hreal Hn.
  destruct (Qlt_le_dec (w n) 0) as [Hneg|]; [|done].
  destruct (Hd n (Hreal n Hn) Hneg) as (s' & Hs' & Hn' & f & Hf & Hfixed).
  rewrite <- (partitioned_same _ _ _ _ Hp Hs Hs' Hn Hn') in Hf.
  specialize (Hreal f Hf). lia.
Qed.

(** ** Pruning *)

Lemma getFrom_default {A} (entry : Values -> Entry A) (default : A)
    (own : Values) (parents : list Values) :
  Forall (fun values => forall value, entry values <> Given value) (own :: parents) ->
  getFrom entry default own parents = default.
Proof.
  revert own. induction parents as [|parent ancestors IH]; intros own Hall; simpl.
  - apply Forall_cons in Hall as [Hown _].
    destruct (entry own) as [| |value]; [done..|]. by destruct (Hown value).
  - apply Forall_cons in Hall as [Hown Hparents].
    destruct (entry own) as [| |value]; [by apply IH|done|]. by destruct (Hown value).
Qed.

(** ** Candidate generation with too few nodes *)

Lemma getRows_IndexError (matrix : list Coordinates) (l : list nat) (i : nat) :
  i ∈ l -> matrix !! i = None -> getRows matrix l = inl IndexError.
Proof.
  intros Hin Hout. induction l as [|j l IH]; [by apply elem_of_nil in Hin|].
  simpl. unfold getRow.
  destruct (matrix !! j) as [c|] eqn:Hj; [|done].
  apply elem_of_cons in Hin as [->|Hin]; [congruence|].
  simpl. by rewrite IH.
Qed.

(** With fewer rows than neighbours asked for, the answer of the index
    holds the number of rows, which is not a row. *)
Lemma query_missing_neighbours `{Geometry} (tree : KDTree.t) (x : Coordinates) (k : Z) :
  1 < k ->
  (length (nearestRows (KDTree.metric tree) (KDTree.data tree) x) < Z.to_nat k)%nat ->
  exists l, KDTree.query tree x k = inr (KDTree.Array l)
            /\ length (KDTree.data tree) ∈ l.
Proof.
  intros Hk Hfew. unfold KDTree.query.
  destruct (Z.ltb_spec k 1) as [|_]; [lia|].
  destruct (Z.eqb_spec k 1) as [|_]; [lia|].
  eexists. split; [done|].
  apply elem_of_app. right.
  rewrite length_take, Nat.min_r by lia.
  destruct (Z.to_nat k - _)%nat as [|m] eqn:Hm; [lia|].
  simpl. apply list_elem_of_here.
Qed.

Lemma candidatesPerNode_IndexError `{Geometry} (kdTree : KDTree.t) (k : Z)
    (f : SegmentFactory.t) (segments : list Segment.t) (networkNodes : list Node.t) :
  networkNodes <> [] ->
  1 < k ->
  (forall x, length (nearestRows (KDTree.metric kdTree) (KDTree.data kdTree) x)
             < Z.to_nat k)%nat ->
  candidatesPerNode kdTree k (KDTree.data kdTree) f segments networkNodes = inl IndexError.
Proof.
  intros Hnodes Hk Hfew.
  destruct networkNodes as [|node1 rest]; [done|]. simpl.
  destruct (query_missing_neighbours kdTree (Node.getCoordinates node1) k Hk (Hfew _))
    as (l & -> & Hin).
  simpl. rewrite (getRows_IndexError _ _ _ Hin); [done|].
  by apply lookup_ge_None.
Qed.

(** Without an existing network, a nonempty node set with fewer nodes than
    [maximumNearestNeighborCount] makes the generation raise. *)
Lemma generateSegments_IndexError `{Geometry} `{ExistingNetwork}
    (self : VariableStore) (nodes : list Node.t) (computeDistance : DistanceMetric)
    (proj4 : string) :
  let networkNodes := SegmentFactory.getNodes (SegmentFactory.new nodes computeDistance proj4) in
  getExistingNetworks self = EmptyString ->
  networkNodes <> [] ->
  Z.of_nat (length networkNodes) < getMaximumNearestNeighborCount self ->
  (forall data x, (length (nearestRows computeDistance data x) <= length data)%nat) ->
  generateSegments self nodes computeDistance proj4 = inl IndexError.
Proof.
  intros networkNodes Hpath Hnodes Hk Hindex.
  unfold generateSegments. fold networkNodes. rewrite Hpath.
  rewrite bool_decide_eq_true_2 by done. simpl.
  destruct (map Node.getCoordinates networkNodes) as [|c matrix] eqn:Hmatrix.
  { by destruct networkNodes. }
  assert (length networkNodes = S (length matrix)) as Hlen.
  { by rewrite <- (length_map Node.getCoordinates), Hmatrix. }
  simpl.
  change (c :: matrix) with (KDTree.data (KDTree.mk computeDistance (c :: matrix))) at 2.
  rewrite candidatesPerNode_IndexError; [done|done|lia|].
  intros x. cbn [KDTree.metric KDTree.data].
  specialize (Hindex (c :: matrix) x). cbn [length] in Hindex.
  unfold Coordinates in *. lia.
Qed.

(** With no node at all the spatial index cannot be built. *)
Lemma generateSegments_ValueError `{Geometry} `{ExistingNetwork}
    (self : VariableStore) (computeDistance : DistanceMetric) (proj4 : string) :
  getExistingNetworks self = EmptyString ->
  generateSegments self [] computeDistance proj4 = inl ValueError.
Proof.
  intros Hpath. unfold generateSegments. rewrite Hpath.
  by rewrite bool_decide_eq_true_2.
Qed.

Lemma rowsByDistance_length (data : list Coordinates) (x : Coordinates) :
  length (rowsByDistance data x) = length data.
Proof.
  unfold rowsByDistance. rewrite sorted_Permutation. apply length_seq.
Qed.

(** ** Candidate generation with enough nodes *)

(** The index is well behaved when it ranks every row of the matrix once. *)
Lemma ranked_rows_valid (rows : list nat) (n : nat) :
  rows ≡ₚ seq 0 n -> length rows = n /\ Forall (fun i => (i < n)%nat) rows.
Proof.
  intros Hperm. split.
  - by rewrite Hperm, length_seq.
  - rewrite Hperm. apply Forall_forall. intros i Hi%elem_of_seq. lia.
Qed.

Lemma getRows_valid (matrix : list Coordinates) (l : list nat) :
  Forall (fun i => (i < length matrix)%nat) l ->
  exists rows, getRows matrix l = inr rows.
Proof.
  induction 1 as [|i l Hi _ [rows IH]]; [by eexists|].
  simpl. unfold getRow.
  destruct (lookup_lt_is_Some_2 matrix i Hi) as [c ->]. simpl.
  rewrite IH. simpl. by eexists.
Qed.

Lemma candidatesPerNode_returns `{Geometry} (kdTree : KDTree.t) (k : Z)
    (f : SegmentFactory.t) (segments : list Segment.t) (networkNodes : list Node.t) :
  1 < k ->
  (Z.to_nat k <= length (KDTree.data kdTree))%nat ->
  (forall x, nearestRows (KDTree.metric kdTree) (KDTree.data kdTree) x
             ≡ₚ seq 0 (length (KDTree.data kdTree))) ->
  exists candidates,
    candidatesPerNode kdTree k (KDTree.data kdTree) f segments networkNodes = inr candidates.
Proof.
  intros Hk Hn Hranked. revert f segments.
  induction networkNodes as [|node1 rest IH]; intros f segments; [by eexists|].
  simpl. unfold KDTree.query.
  destruct (Z.ltb_spec k 1) as [|_]; [lia|].
  destruct (Z.eqb_spec k 1) as [|_]; [lia|].
  simpl.
  destruct (ranked_rows_valid _ _ (Hranked (Node.getCoordinates node1))) as [Hlen Hvalid].
  rewrite length_take, Hlen, Nat.min_l, Nat.sub_diag, app_nil_r by lia.
  destruct (getRows_valid (KDTree.data kdTree)
              (take (Z.to_nat k)
                 (nearestRows (KDTree.metric kdTree) (KDTree.data kdTree)
                    (Node.getCoordinates node1)))) as [rows ->].
  { by apply Forall_take. }
  simpl. destruct (appendCandidates f segments node1 rows) as [f' segments']. apply IH.
Qed.

(** Without an existing network, with at least two neighbours asked for
    and at least as many nodes, the generation returns. *)
Lemma generateSegments_returns `{Geometry} `{ExistingNetwork}
    (self : VariableStore) (nodes : list Node.t) (computeDistance : DistanceMetric)
    (proj4 : string) :
  let networkNodes := SegmentFactory.getNodes (SegmentFactory.new nodes computeDistance proj4) in
  let k := getMaximumNearestNeighborCount self in
  getExistingNetworks self = EmptyString ->
  1 < k <= Z.of_nat (length networkNodes) ->
  (forall data x, nearestRows computeDistance data x ≡ₚ seq 0 (length data)) ->
  exists candidates net0,
    generateSegments self nodes computeDistance proj4 = inr (candidates, net0).
Proof.
  intros networkNodes k Hpath Hk Hranked.
  unfold generateSegments. fold networkNodes. fold k. rewrite Hpath.
  rewrite bool_decide_eq_true_2 by done. simpl.
  destruct (map Node.getCoordinates networkNodes) as [|c matrix] eqn:Hmatrix.
  { destruct networkNodes; [simpl in Hk; lia | done]. }
  assert (length networkNodes = S (length matrix)) as Hlen.
  { by rewrite <- (length_map Node.getCoordinates), Hmatrix. }
  simpl.
  change (c :: matrix) with (KDTree.data (KDTree.mk computeDistance (c :: matrix))) at 2.
  destruct (candidatesPerNode_returns (KDTree.mk computeDistance (c :: matrix)) k
              (SegmentFactory.new nodes computeDistance proj4) [] networkNodes)
    as [candidates ->].
  - lia.
  - cbn [KDTree.data length]. unfold Coordinates in *. lia.
  - intros x. apply Hranked.
  - simpl. by eexists _, _.
Qed.

(** ** The worked example *)

Lemma exampleNetwork_partitioned : partitioned exampleNetwork.
Proof.
  unfold partitioned, disjointNodes. simpl.
  repeat split; repeat constructor;
    intros n Hn%list_elem_of_singleton Hm%list_elem_of_singleton; by subst.
Qed.


Lemma exampleWeights_real (n : Node.t) : 0 <= Node.getID n -> (0 <= exampleWeights n)%Q.
Proof.
  intros _. unfold exampleWeights.
  repeat case_match; by vm_compute.
Qed.

Lemma exampleSegments_cost (segment : Segment.t) :
  segment ∈ exampleSegments -> (0 <= Segment.getWeight segment)%Q.
Proof.
  unfold exampleSegments. intros Hin.
  repeat (apply elem_of_cons in Hin as [->|Hin]); [by vm_compute..|].
  by apply elem_of_nil in Hin.
Qed.

Lemma scenarioBuild_returns : scenarioBuild = inr scenarioResult.
Proof.
  unfold scenarioResult. destruct scenarioBuild as [e|result] eqn:Hbuild; [|done].
  vm_compute in Hbuild. discriminate.
Qed.

(** The scenario of the specification: the three nodes in a row end in one
    subnet with the weight 10 + 10 - 1 = 19 and then 19 + 10 - 1 = 28, and
    the remote node is pruned. *)
Example scenario_result :
  map (fun s => map Node.getID (Subnet.nodes s)) (Network.subnets (net scenarioResult))
  = [[3; 1; 2]]
  /\ Forall (fun n => (weights scenarioResult n == 28)%Q) [nodeA; nodeB; nodeC]
  /\ (weights scenarioResult nodeD == 1)%Q.
Proof.
  split; [by vm_compute|].
  split; [repeat constructor; by vm_compute | by vm_compute].
Qed.

(** As many neighbours as there are nodes is the most that the generation
    accepts: with the four nodes of the scenario it returns for four
    neighbours and raises for five, the default. *)
Example scenario_boundary :
  (exists candidates,
     @generateSegments taxicabGeometry noExistingNetwork
       (scenarioStore (Given 4)) scenarioNodes computeEuclideanDistance "+proj=utm +units=m"
     = inr candidates)
  /\ @generateSegments taxicabGeometry noExistingNetwork
       (scenarioStore Missing) scenarioNodes computeEuclideanDistance "+proj=utm +units=m"
     = inl IndexError.
Proof.
  split; [|by vm_compute].
  destruct (@generateSegments taxicabGeometry noExistingNetwork
              (scenarioStore (Given 4)) scenarioNodes computeEuclideanDistance "+proj=utm +units=m")
    as [e|candidates] eqn:Hgen; [|by eexists].
  vm_compute in Hgen. discriminate.
Qed.

(** ** The order of the pass *)

Lemma processSegments_calls `{FloatArithmetic} (st : State) (order : list Segment.t) :
  exists made,
    calls (processSegments st order) = calls st ++ made /\ made `sublist_of` order.
Proof.
  revert st. induction order as [|segment order IH]; intros st; simpl.
  - exists []. by rewrite app_nil_r.
  - destruct (IH (processSegment st segment)) as (made & -> & Hsub).
    destruct (bothQualify st segment) eqn:Hq.
    + destruct (Network.addSegment (net st) segment) as [net' [subnet|]] eqn:Hadd.
      * rewrite (processSegment_merge _ _ _ _ Hq Hadd). simpl.
        exists (segment :: made). rewrite <- app_assoc. split; [done|].
        by apply sublist_skip.
      * rewrite (processSegment_cycle _ _ _ Hq Hadd). simpl.
        exists (segment :: made). rewrite <- app_assoc. split; [done|].
        by apply sublist_skip.
    + rewrite processSegment_unqualified by done.
      exists made. split; [done|]. by apply sublist_cons.
Qed.

Lemma StronglySorted_sublist {A} (R : relation A) (l k : list A) :
  StronglySorted R k -> l `sublist_of` k -> StronglySorted R l.
Proof.
  intros Hk Hsub. induction Hsub as [|x l k Hsub IH|x l k Hsub IH].
  - constructor.
  - apply StronglySorted_inv in Hk as [Hk Hx].
    constructor; [by apply IH|].
    rewrite Forall_forall in Hx |- *.
    intros y Hy. apply Hx. by eapply elem_of_sublist.
  - apply StronglySorted_inv in Hk as [Hk _]. by apply IH.
Qed.

(** The lookup answers with the nearest store that has an entry. *)
Lemma getFrom_nearest {A} (entry : Values -> Entry A) (default : A)
    (own : Values) (parents inner : list Values) (values : Values) (outer : list Values) :
  own :: parents = inner ++ values :: outer ->
  Forall (fun values => entry values = Missing) inner ->
  getFrom entry default own parents
  = match entry values with
    | Given value => value
    | Blank => default
    | Missing =>
        match outer with
        | [] => default
        | parent :: ancestors => getFrom entry default parent ancestors
        end
    end.
Proof.
  revert own parents. induction inner as [|first inner IH]; intros own parents Hchain Hinner.
  - simpl in Hchain. injection Hchain as -> ->. by destruct outer.
  - simpl in Hchain. injection Hchain as -> ->.
    apply Forall_cons in Hinner as [Hfirst Hinner].
    destruct inner as [|second inner].
    + simpl. rewrite Hfirst. by apply (IH values outer).
    + simpl. rewrite Hfirst. by apply (IH second (inner ++ values :: outer)).
Qed.

(** * The claims *)

(** C1.  In the pass of [buildNetworkFromSegments], [net.addSegment] is
    called for a candidate segment if and only if each endpoint on its own
    qualifies, that is, its current weight is at least the weight of the
    segment or its identifier is negative.  When both qualify the network
    of the next state is the one that [addSegment] leaves for this
    segment; otherwise the segment is discarded and nothing changes.  In
    particular a segment with one fixed endpoint whose other endpoint is
    real and holds less than the cost is discarded. *)
Theorem segment_committed_iff_endpoints_qualify `{FloatArithmetic}
    (segments : list Segment.t) (net0 : Network.t) (w : Weights)
    (pre post : list Segment.t) (segment : Segment.t) :
  sorted Segment.getWeight segments = pre ++ segment :: post ->
  let st := processSegments (mkState net0 w []) pre in
  let st' := processSegment st segment in
  let node1 := Segment.node1 segment in
  let node2 := Segment.node2 segment in
  let sWeight := Segment.getWeight segment in
  let endpointsQualify :=
    ((sWeight <= weights st node1)%Q \/ Node.getID node1 < 0)
    /\ ((sWeight <= weights st node2)%Q \/ Node.getID node2 < 0) in
  buildNetworkFromSegments segments net0 w = processSegments st' post
  /\ (calls st' = calls st ++ [segment] <-> endpointsQualify)
  /\ (endpointsQualify -> net st' = (Network.addSegment (net st) segment).1)
  /\ (~ endpointsQualify -> st' = st)
  /\ (Node.getID node1 < 0 -> 0 <= Node.getID node2 ->
      (weights st node2 < sWeight)%Q -> st' = st)
  /\ (Node.getID node2 < 0 -> 0 <= Node.getID node1 ->
      (weights st node1 < sWeight)%Q -> st' = st).
Proof.
  intros Hs st st' node1 node2 sWeight endpointsQualify.
  assert (bothQualify st segment = true <-> endpointsQualify) as Hq.
  { unfold bothQualify. rewrite andb_true_iff, !qualifies_iff. done. }
  assert (~ endpointsQualify -> st' = st) as Hdiscard.
  { intros Hn. apply processSegment_unqualified.
    apply not_true_iff_false. by rewrite Hq. }
  split; [by apply buildNetworkFromSegments_split|].
  split; [|split; [|split; [done|]]].
  - split.
    + intros Hcalls. destruct (bothQualify st segment) eqn:Hb; [by apply Hq|].
      subst st'. rewrite processSegment_unqualified in Hcalls by done.
      apply (f_equal length) in Hcalls. rewrite length_app in Hcalls. simpl in Hcalls. lia.
    + intros Hb%Hq. subst st'.
      destruct (Network.addSegment (net st) segment) as [net' [subnet|]] eqn:Hadd.
      * by rewrite (processSegment_merge _ _ _ _ Hb Hadd).
      * by rewrite (processSegment_cycle _ _ _ Hb Hadd).
  - intros Hb%Hq. subst st'.
    destruct (Network.addSegment (net st) segment) as [net' [subnet|]] eqn:Hadd.
    + by rewrite (processSegment_merge _ _ _ _ Hb Hadd).
    + by rewrite (processSegment_cycle _ _ _ Hb Hadd).
  - split; intros Hfixed Hreal Hlt; apply Hdiscard; intros [H1 H2].
    + destruct H2 as [H2|H2]; [by apply (Qlt_not_le _ _ Hlt) | lia].
    + destruct H1 as [H1|H1]; [by apply (Qlt_not_le _ _ Hlt) | lia].
Qed.

Lemma segment_committed_iff_endpoints_qualify_witness :
  let st := @processSegments exactArithmetic exampleStart [segmentAB; segmentBC] in
  @processSegment exactArithmetic st segmentFR = st
  /\ net (@processSegment exactArithmetic exampleStart segmentAB)
     = (Network.addSegment exampleNetwork segmentAB).1.
Proof.
  intros st. split.
  - destruct (@segment_committed_iff_endpoints_qualify exactArithmetic
                exampleSegments exampleNetwork exampleWeights
                [segmentAB; segmentBC] [segmentCD] segmentFR)
      as (_ & _ & _ & _ & Hfixed & _); [reflexivity|].
    apply Hfixed.
    + simpl. lia.
    + simpl. lia.
    + vm_compute. reflexivity.
  - destruct (@segment_committed_iff_endpoints_qualify exactArithmetic
                exampleSegments exampleNetwork exampleWeights
                [] [segmentBC; segmentFR; segmentCD] segmentAB)
      as (_ & _ & Hcommit & _); [reflexivity|].
    apply Hcommit. split; left; by vm_compute.
Defined.

(** C2, as the claim states it, fails: [cycleNodes] yields the real nodes
    only, so a fixed node of the merged subnet is not assigned.  The real
    node A with budget 10 and the fixed node F with weight 0 are joined
    by a segment of cost 5; F is a node of the merged subnet and keeps
    the weight 0, which is not 10 + 0 - 5. *)
Lemma merged_subnet_weight_counterexample :
  let st' := @processSegment exactArithmetic exampleStart segmentAF in
  bothQualify exampleStart segmentAF = true
  /\ exists net' subnet,
       Network.addSegment exampleNetwork segmentAF = (net', Some subnet)
       /\ nodeF ∈ Subnet.nodes subnet
       /\ ~ (weights st' nodeF
             == exampleWeights nodeA + exampleWeights nodeF - Segment.getWeight segmentAF)%Q.
Proof.
  intros st'. split; [by vm_compute|].
  exists (Network.addSegment exampleNetwork segmentAF).1,
         (Subnet.mk [nodeA; nodeF] [segmentAF]).
  split; [reflexivity|].
  split; [apply list_elem_of_further, list_elem_of_here|].
  intros Heq. vm_compute in Heq. discriminate.
Qed.

(** C2.  When both endpoints of a candidate qualify and [net.addSegment]
    returns the merged subnet, the network of the next state is the one
    [addSegment] left, the merged subnet holds both endpoints, and every
    real node of the merged subnet, the nodes that [cycleNodes] yields, is
    assigned [n1Weight + n2Weight - sWeight] as the arithmetic of the
    program computes it: the rounded sum of the weights of the two
    endpoints as they were read before the call, minus the weight of the
    segment, rounded.  Every fixed node keeps its weight. *)
Theorem merged_subnet_weight `{FloatArithmetic}
    (segments : list Segment.t) (net0 : Network.t) (w : Weights)
    (pre post : list Segment.t) (segment : Segment.t)
    (net' : Network.t) (subnet : Subnet.t) :
  sorted Segment.getWeight segments = pre ++ segment :: post ->
  let st := processSegments (mkState net0 w []) pre in
  let st' := processSegment st segment in
  let wA := weights st (Segment.node1 segment) in
  let wB := weights st (Segment.node2 segment) in
  let wS := Segment.getWeight segment in
  bothQualify st segment = true ->
  Network.addSegment (net st) segment = (net', Some subnet) ->
  net st' = net'
  /\ Segment.node1 segment ∈ Subnet.nodes subnet
  /\ Segment.node2 segment ∈ Subnet.nodes subnet
  /\ (forall node, node ∈ Subnet.cycleNodes subnet <->
                   node ∈ Subnet.nodes subnet /\ 0 <= Node.getID node)
  /\ (forall node, node ∈ Subnet.nodes subnet -> 0 <= Node.getID node ->
                   weights st' node = round (round (wA + wB) - wS)%Q)
  /\ (forall node, Node.getID node < 0 -> weights st' node = weights st node).
Proof.
  intros _ st st' wA wB wS Hq Hadd. subst st'.
  rewrite (processSegment_merge _ _ _ _ Hq Hadd). simpl.
  apply addSegment_Some in Hadd as (_ & Hsubnet & _).
  split; [done|].
  split; [rewrite Hsubnet; apply merge_nodes; left; apply subnetOf_member|].
  split; [rewrite Hsubnet; apply merge_nodes; right; apply subnetOf_member|].
  split; [intros node; apply elem_of_cycleNodes|].
  split.
  - intros node Hnode Hreal. apply setWeights_member. by apply elem_of_cycleNodes.
  - intros node Hfixed. apply setWeights_other.
    intros [_ Hreal]%elem_of_cycleNodes. lia.
Qed.

Lemma merged_subnet_weight_witness :
  weights (@processSegment exactArithmetic exampleStart segmentAB) nodeB = (10 + 10 - 1)%Q
  /\ weights (@processSegment quarterArithmetic exampleStart segmentAH) nodeB
     = quarters (quarters (10 + 10) - (1 # 3))%Q.
Proof.
  split.
  - destruct (@merged_subnet_weight exactArithmetic
                exampleSegments exampleNetwork exampleWeights
                [] [segmentBC; segmentFR; segmentCD] segmentAB
                (Network.addSegment exampleNetwork segmentAB).1
                (Subnet.mk [nodeA; nodeB] [segmentAB]))
      as (_ & _ & _ & _ & Hreal & _); [reflexivity..|].
    apply Hreal; [apply list_elem_of_further, list_elem_of_here | by vm_compute].
  - destruct (@merged_subnet_weight quarterArithmetic
                [segmentAH] exampleNetwork exampleWeights [] [] segmentAH
                (Network.addSegment exampleNetwork segmentAH).1
                (Subnet.mk [nodeA; nodeB] [segmentAH]))
      as (_ & _ & _ & _ & Hreal & _); [reflexivity..|].
    apply Hreal; [apply list_elem_of_further, list_elem_of_here | by vm_compute].
Defined.




(** C4, as the claim states it, fails on a network whose subnets share a
    node.  [generateSegments] returns such a network when a vertex of the
    existing network lies on a demand node: the road from A to the fixed
    node F gives the subnets [A], [B], [C], [D] and [A; F].  Every real
    node starts with 10, and F with -91.  The segment between B and F,
    of cost 6, merges [B] with [A; F] and assigns 10 - 91 - 6 to A and B;
    the subnet [A], which holds real nodes only, is left with a negative
    weight. *)
Lemma real_subnets_nonnegative_counterexample :
  (exists candidates,
     @generateSegments taxicabGeometry crossingRoad
       roadStore scenarioNodes computeEuclideanDistance "+proj=utm +units=m"
     = inr (candidates, crossingNetwork))
  /\ (0 <= Segment.getWeight segmentBF)%Q
  /\ (forall node, 0 <= Node.getID node -> (0 <= indebtedWeights node)%Q)
  /\ let st := @buildNetworkFromSegments exactArithmetic
                 [segmentBF] crossingNetwork indebtedWeights in
     Subnet.singleton nodeA ∈ Network.subnets (net st)
     /\ (weights st nodeA < 0)%Q.
Proof.
  split.
  { destruct (@generateSegments taxicabGeometry crossingRoad
                roadStore scenarioNodes computeEuclideanDistance "+proj=utm +units=m")
      as [e|[candidates net0]] eqn:Hgen.
    - vm_compute in Hgen. discriminate.
    - exists candidates. vm_compute in Hgen. injection Hgen as _ <-.
      by vm_compute. }
  split; [by vm_compute|].
  split.
  { intros node Hreal. unfold indebtedWeights.
    destruct (Z.ltb_spec (Node.getID node) 0); [lia|by vm_compute]. }
  intros st. split; [|by vm_compute].
  vm_compute. apply list_elem_of_further, list_elem_of_here.
Qed.

(** C4.  On a network whose subnets share no node at entry, when every
    segment weight is a nonnegative float and every real node starts with
    a nonnegative weight, then after the first [n] candidates of the pass,
    for every [n], every subnet that holds only real nodes has
    nonnegative weights, and a real node whose weight is negative lies in
    a subnet that holds a fixed node.  For the candidate that comes next,
    two real endpoints that both pass the affordability test leave a
    merged weight that is nonnegative. *)
Theorem real_subnets_stay_nonnegative `{FloatArithmetic}
    (segments : list Segment.t) (net0 : Network.t) (w : Weights) (n : nat) :
  partitioned net0 ->
  (forall segment, segment ∈ segments ->
     (0 <= Segment.getWeight segment)%Q
     /\ (round (Segment.getWeight segment) == Segment.getWeight segment)%Q) ->
  (forall node, 0 <= Node.getID node -> (0 <= w node)%Q) ->
  let order := sorted Segment.getWeight segments in
  let st := processSegments (mkState net0 w []) (take n order) in
  (forall s, s ∈ Network.subnets (net st) ->
     (forall node, node ∈ Subnet.nodes s -> 0 <= Node.getID node) ->
     forall node, node ∈ Subnet.nodes s -> (0 <= weights st node)%Q)
  /\ debtOnlyWithFixed (net st) (weights st)
  /\ (forall segment, order !! n = Some segment ->
      0 <= Node.getID (Segment.node1 segment) ->
      0 <= Node.getID (Segment.node2 segment) ->
      bothQualify st segment = true ->
      (0 <= round (round (weights st (Segment.node1 segment)
                          + weights st (Segment.node2 segment))
                   - Segment.getWeight segment))%Q).
Proof.
  intros Hp Hcost Hstart order st.
  assert (forall segment, segment ∈ order ->
            (0 <= Segment.getWeight segment)%Q
            /\ (round (Segment.getWeight segment) == Segment.getWeight segment)%Q)
    as Hcost'.
  { intros segment Hin. apply Hcost.
    subst order. by rewrite (sorted_Permutation Segment.getWeight) in Hin. }
  assert (partitioned (net st) /\ debtOnlyWithFixed (net st) (weights st)) as [Hp' Hd'].
  { subst st.
    apply (processSegments_invariant
             (fun st => partitioned (net st) /\ debtOnlyWithFixed (net st) (weights st))).
    - intros st segment Hin [Hp' Hd']. split.
      + by apply processSegment_partitioned.
      + destruct (Hcost' segment) as [Hnonneg Hfloat];
          [by apply (subseteq_take n order)|].
        by apply processSegment_debtOnlyWithFixed.
    - split; [done|]. intros node Hreal Hneg. simpl in Hneg.
      by destruct (Qlt_not_le _ _ Hneg (Hstart node Hreal)). }
  split; [|split; [done|]].
  - intros s Hin Hreal node Hnode. by eapply real_subnet_nonnegative.
  - intros segment Hnext Hreal1 Hreal2 Hq.
    destruct (bothQualify_real st segment Hq Hreal1 Hreal2) as [HA HB].
    destruct (Hcost' segment) as [Hnonneg Hfloat]; [by eapply list_elem_of_lookup_2|].
    by apply affordable_merge_nonnegative.
Qed.

Lemma real_subnets_stay_nonnegative_witness :
  let st := @processSegments exactArithmetic exampleStart [segmentAB; segmentBC] in
  debtOnlyWithFixed (net st) (weights st).
Proof.
  intros st.
  apply (@real_subnets_stay_nonnegative exactArithmetic
           exampleSegments exampleNetwork exampleWeights 2).
  - apply exampleNetwork_partitioned.
  - intros segment Hin. split; [by apply exampleSegments_cost | reflexivity].
  - apply exampleWeights_real.
Defined.

(** C5, as the claim states it, fails: a candidate list holds a segment as
    often as it was generated, and the pass visits every entry.  On the
    network with the subnets [A], [B], [C], [D] and [A; F], with 1 for A
    and 10 for the other real nodes, the candidates are the segment
    between A and B, the segment between F and C, and the segment between
    A and B again, all of cost 5.  At its first visit the segment between
    A and B is discarded, because A holds 1.  The merge of C with the
    subnet of F then assigns 5 to A, and at its second visit the segment
    is committed. *)
Lemma discarded_segment_counterexample :
  let segments := [segmentAB5; segmentFC; segmentAB5] in
  let start := mkState crossingNetwork poorWeights [] in
  let final := @buildNetworkFromSegments exactArithmetic
                 segments crossingNetwork poorWeights in
  sorted Segment.getWeight segments = [] ++ segmentAB5 :: [segmentFC; segmentAB5]
  /\ bothQualify start segmentAB5 = false
  /\ @processSegment exactArithmetic start segmentAB5 = start
  /\ Network.history (net final) = [segmentAB5; segmentFC]
  /\ calls final = [segmentFC; segmentAB5].
Proof. repeat split; by vm_compute. Qed.

(** C5.  A discarded candidate has no effect: when an endpoint fails the
    affordability test, or when [net.addSegment] returns [None] for the
    cycle, the weight of every node and the network are unchanged.  The
    pass then goes on with the candidates that follow; it visits each
    entry of the candidate list exactly once, so the segment comes up
    again only if the candidate list holds it more than once: it is among
    the candidates that follow as often as the list holds it, less the
    visits so far. *)
Theorem discarded_segment_leaves_weights `{FloatArithmetic}
    (segments : list Segment.t) (net0 : Network.t) (w : Weights)
    (pre post : list Segment.t) (segment : Segment.t) :
  sorted Segment.getWeight segments = pre ++ segment :: post ->
  let st := processSegments (mkState net0 w []) pre in
  let st' := processSegment st segment in
  let occurrences := count_occ Segment.eq_dec in
  bothQualify st segment = false
  \/ (exists net', Network.addSegment (net st) segment = (net', None)) ->
  (forall node, weights st' node = weights st node)
  /\ net st' = net st
  /\ buildNetworkFromSegments segments net0 w = processSegments st' post
  /\ pre ++ segment :: post ≡ₚ segments
  /\ S (occurrences pre segment + occurrences post segment) = occurrences segments segment
  /\ (segment ∈ post -> (2 <= occurrences segments segment)%nat)
  /\ (NoDup segments -> segment ∉ post).
Proof.
  intros Hs st st' occurrences Hdiscard.
  assert (weights st' = weights st /\ net st' = net st) as [Hw Hn].
  { subst st'. destruct (bothQualify st segment) eqn:Hq.
    - destruct Hdiscard as [|[net' Hadd]]; [done|].
      rewrite (processSegment_cycle _ _ _ Hq Hadd). simpl.
      by apply addSegment_None in Hadd as ->.
    - by rewrite processSegment_unqualified. }
  assert (pre ++ segment :: post ≡ₚ segments) as Hperm.
  { rewrite <- Hs. apply sorted_Permutation. }
  assert (S (occurrences pre segment + occurrences post segment)
          = occurrences segments segment) as Hcount.
  { subst occurrences.
    rewrite <- (proj1 (Permutation_count_occ Segment.eq_dec _ _) Hperm segment).
    rewrite count_occ_app, count_occ_cons_eq by done. lia. }
  split; [by intros node; rewrite Hw|].
  split; [done|].
  split; [by apply buildNetworkFromSegments_split|].
  split; [done|].
  split; [done|].
  split.
  - intros Hin%list_elem_of_In. apply (count_occ_In Segment.eq_dec) in Hin.
    rewrite <- Hcount. fold occurrences in Hin. lia.
  - intros Hnodup. rewrite <- Hperm in Hnodup.
    apply NoDup_app in Hnodup as (_ & _ & Hpost).
    by apply NoDup_cons in Hpost as [Hnotin _].
Qed.

Lemma discarded_segment_leaves_weights_witness :
  let st := @processSegments exactArithmetic exampleStart [segmentAB; segmentBC] in
  weights (@processSegment exactArithmetic st segmentFR) nodeR = weights st nodeR.
Proof.
  intros st.
  apply (@discarded_segment_leaves_weights exactArithmetic
           exampleSegments exampleNetwork exampleWeights
           [segmentAB; segmentBC] [segmentCD] segmentFR); [reflexivity|].
  left. vm_compute. reflexivity.
Defined.

(** C6.  [buildNetworkFromSegments] runs the body of its loop on the
    candidates one after the other in the order of [sorted] by
    [getWeight()], each on the state that the candidates before it have
    left.  This processing order is a permutation of the candidates,
    ascending in weight, and the candidates of any one weight come in the
    order in which the candidate list holds them; these properties leave
    no choice: every ascending arrangement that keeps the candidates of
    each weight in their order is this processing order.  What can be
    seen of the order from outside agrees: the calls of [net.addSegment]
    are made in the processing order, so in ascending weight. *)
Theorem segments_processed_in_ascending_stable_order `{FloatArithmetic}
    (segments : list Segment.t) (net0 : Network.t) (w : Weights) :
  let order := sorted Segment.getWeight segments in
  let byWeight := fun a b => (Segment.getWeight a <= Segment.getWeight b)%Q in
  let ofWeight := fun q => filter (fun s => Qeq_bool (Segment.getWeight s) q = true) in
  let final := buildNetworkFromSegments segments net0 w in
  final = fold_left processSegment order (mkState net0 w [])
  /\ (forall pre segment post,
        order = pre ++ segment :: post ->
        final = fold_left processSegment post
                  (processSegment (fold_left processSegment pre (mkState net0 w []))
                     segment))
  /\ order ≡ₚ segments
  /\ StronglySorted byWeight order
  /\ (forall q, ofWeight q order = ofWeight q segments)
  /\ (forall order',
        StronglySorted byWeight order' ->
        (forall q, ofWeight q order' = ofWeight q segments) ->
        order' = order)
  /\ calls final `sublist_of` order
  /\ StronglySorted byWeight (calls final).
Proof.
  intros order byWeight ofWeight final. subst order final.
  assert (calls (buildNetworkFromSegments segments net0 w)
            `sublist_of` sorted Segment.getWeight segments) as Hcalls.
  { unfold buildNetworkFromSegments.
    destruct (processSegments_calls (mkState net0 w []) (sorted Segment.getWeight segments))
      as (made & -> & Hsub).
    done. }
  split; [done|].
  split.
  { intros pre segment post Horder. unfold buildNetworkFromSegments.
    rewrite Horder. unfold processSegments.
    by rewrite fold_left_app. }
  split; [apply sorted_Permutation|].
  split; [apply (sorted_ascending Segment.getWeight)|].
  split; [intros q; apply (sorted_withKey Segment.getWeight)|].
  split; [intros order' Hasc Hstable; by apply (sorted_unique Segment.getWeight)|].
  split; [done|].
  eapply StronglySorted_sublist; [|exact Hcalls].
  apply (sorted_ascending Segment.getWeight).
Qed.

(** C7.  The network that [buildNetworkFromNodes] returns holds exactly the
    subnets of the built network whose count of real nodes [countNodes()]
    is at least the configured [minimumNodeCountPerSubnetwork], in their
    order; every subnet with a smaller count is dropped.  The configured
    threshold is the value of the nearest store, from the store of the
    build outwards, that has an entry for the option: the value of the
    entry, or 2 when the entry is blank; it is 2 when no store has an
    entry. *)
Theorem returned_network_keeps_large_subnets
    `{Geometry} `{ExistingNetwork} `{FloatArithmetic}
    (self : VariableStore) (nodes : list Node.t) (proj4 : string) (w : Weights)
    (result : State) :
  buildNetworkFromNodes self nodes proj4 w = inr result ->
  exists segments net0,
    generateSegments self nodes
      (if unitsInMeters proj4 then computeEuclideanDistance else computeSphericalDistance)
      proj4
    = inr (segments, net0)
    /\ let built := net (buildNetworkFromSegments segments net0 w) in
       let minimum := getMinimumNodeCountPerSubnetwork self in
       Network.subnets (net result)
       = filter (fun subnet => minimum <= Z.of_nat (Subnet.countNodes subnet))
           (Network.subnets built)
       /\ (forall subnet,
             subnet ∈ Network.subnets (net result) <->
             subnet ∈ Network.subnets built
             /\ minimum <= Z.of_nat (Subnet.countNodes subnet))
       /\ (forall subnet,
             Z.of_nat (Subnet.countNodes subnet) < minimum ->
             subnet ∉ Network.subnets (net result))
       /\ (forall inner values outer,
             valueByOptionBySection self :: variableStore self
             = inner ++ values :: outer ->
             Forall (fun values => minimumNodeCountPerSubnetwork values = Missing) inner ->
             (forall m, minimumNodeCountPerSubnetwork values = Given m -> minimum = m)
             /\ (minimumNodeCountPerSubnetwork values = Blank -> minimum = 2))
       /\ (Forall (fun values => forall value,
                     minimumNodeCountPerSubnetwork values <> Given value)
             (valueByOptionBySection self :: variableStore self) ->
           minimum = 2).
Proof.
  unfold buildNetworkFromNodes. intros Hbuild.
  destruct (generateSegments self nodes _ proj4) as [e|[segments net0]] eqn:Hgen; [done|].
  simpl in Hbuild. injection Hbuild as Hresult. subst result.
  exists segments, net0. split; [done|]. simpl.
  split; [done|].
  split; [|split; [|split]].
  - intros subnet. unfold Network.cycleSubnets. rewrite list_elem_of_filter. tauto.
  - intros subnet Hsmall [Hmin _]%list_elem_of_filter. lia.
  - intros inner values outer Hchain Hinner.
    unfold getMinimumNodeCountPerSubnetwork, get.
    rewrite (getFrom_nearest _ _ _ _ inner values outer Hchain Hinner).
    split; [by intros m ->|by intros ->].
  - intros Hall. by apply getFrom_default.
Qed.

Lemma returned_network_keeps_large_subnets_witness :
  Forall (fun subnet => 2 <= Z.of_nat (Subnet.countNodes subnet))
    (Network.subnets (net scenarioResult)).
Proof.
  apply Forall_forall. intros subnet Hin.
  destruct (@returned_network_keeps_large_subnets
              taxicabGeometry noExistingNetwork exactArithmetic
              (scenarioStore (Given 2)) scenarioNodes "+proj=utm +units=m" exampleWeights
              scenarioResult scenarioBuild_returns)
    as (segments & net0 & Hgen & Hfilter & Hiff & Hrest).
  destruct (Hiff subnet) as [Hkept _].
  destruct (Hkept Hin) as [Hbuilt Hmin]. exact Hmin.
Defined.

(** C8.  Pruning is antitone in the threshold: on one built network, a
    larger [minimumNodeCountPerSubnetwork] never leaves more subnets. *)
Theorem pruning_antitone (built : Network.t) (m1 m2 : Z) :
  m1 <= m2 ->
  (length (Network.subnets (eliminateSmallSubnets m2 built))
   <= length (Network.subnets (eliminateSmallSubnets m1 built)))%nat.
Proof.
  intros Hle. unfold eliminateSmallSubnets, Network.cycleSubnets. simpl.
  induction (Network.subnets built) as [|subnet l IH]; [done|].
  rewrite !filter_cons.
  destruct (decide (m2 <= Z.of_nat (Subnet.countNodes subnet)));
    destruct (decide (m1 <= Z.of_nat (Subnet.countNodes subnet))); simpl; lia.
Qed.

Lemma pruning_antitone_witness :
  (length (Network.subnets (eliminateSmallSubnets 2 exampleNetwork))
   <= length (Network.subnets (eliminateSmallSubnets 1 exampleNetwork)))%nat.
Proof. apply (pruning_antitone exampleNetwork 1 2). lia. Defined.

(** C9.  Two nodes and the default of five neighbours: the index answers the
    query at the first node with the two rows and fills the three missing
    neighbours with the number of rows, 2, which is not a row of the
    matrix; indexing the matrix raises, and so does the build, whatever
    the arithmetic of the weights is. *)
Theorem generateSegments_raises_when_neighbours_missing `{FloatArithmetic} :
  getMaximumNearestNeighborCount (scenarioStore Missing) = 5
  /\ @KDTree.query taxicabGeometry
       (KDTree.mk computeEuclideanDistance (map Node.getCoordinates [nodeA; nodeB]))
       (Node.getCoordinates nodeA) 5
     = inr (KDTree.Array [0; 1; 2; 2; 2]%nat)
  /\ @generateSegments taxicabGeometry noExistingNetwork
       (scenarioStore Missing) [nodeA; nodeB] computeEuclideanDistance "+proj=utm +units=m"
     = inl IndexError
  /\ @buildNetworkFromNodes taxicabGeometry noExistingNetwork _
       (scenarioStore Missing) [nodeA; nodeB] "+proj=utm +units=m" exampleWeights
     = inl IndexError.
Proof.
  assert (@generateSegments taxicabGeometry noExistingNetwork
            (scenarioStore Missing) [nodeA; nodeB] computeEuclideanDistance
            "+proj=utm +units=m"
          = inl IndexError) as Hgen.
  { apply (@generateSegments_IndexError taxicabGeometry noExistingNetwork);
      [done | done | by vm_compute |].
    intros data x. simpl. by rewrite rowsByDistance_length. }
  split; [done|]. split; [by vm_compute|]. split; [done|].
  unfold buildNetworkFromNodes.
  replace (unitsInMeters "+proj=utm +units=m") with true by (by vm_compute).
  by rewrite Hgen.
Qed.

(** C10.  Zero demand nodes and no existing network: the coordinate matrix
    has no row, the spatial index cannot be built, and both
    [generateSegments] and [buildNetworkFromNodes] raise instead of
    returning an empty result. *)
Theorem build_raises_without_nodes `{Geometry} `{ExistingNetwork} `{FloatArithmetic}
    (minimum maximum : Entry Z) (state : option (list string))
    (computeDistance : DistanceMetric) (proj4 : string) (w : Weights) :
  let self := mkStore (mkValues minimum maximum Missing) [] state in
  generateSegments self [] computeDistance proj4 = inl ValueError
  /\ buildNetworkFromNodes self [] proj4 w = inl ValueError.
Proof.
  intros self. split.
  - by apply generateSegments_ValueError.
  - unfold buildNetworkFromNodes. by rewrite generateSegments_ValueError.
Qed.

(** * Further properties of the code *)

(** ** The merge loop *)

(** X1.  When a candidate is committed and [net.addSegment] returns the
    merged subnet, the loop writes the weight of the nodes that
    [cycleNodes] of that subnet yields and of no other node. *)
Theorem committed_segment_changes_only_merged_subnet `{FloatArithmetic}
    (segments : list Segment.t) (net0 : Network.t) (w : Weights)
    (pre post : list Segment.t) (segment : Segment.t)
    (net' : Network.t) (subnet : Subnet.t) :
  sorted Segment.getWeight segments = pre ++ segment :: post ->
  let st := processSegments (mkState net0 w []) pre in
  let st' := processSegment st segment in
  bothQualify st segment = true ->
  Network.addSegment (net st) segment = (net', Some subnet) ->
  forall node, node ∉ Subnet.cycleNodes subnet -> weights st' node = weights st node.
Proof.
  intros _ st st' Hq Hadd node Hnode. subst st'.
  rewrite (processSegment_merge _ _ _ _ Hq Hadd). simpl.
  by apply setWeights_other.
Qed.

Lemma committed_segment_changes_only_merged_subnet_witness :
  weights (@processSegment exactArithmetic exampleStart segmentAB) nodeD
  = weights exampleStart nodeD.
Proof.
  eapply (@committed_segment_changes_only_merged_subnet exactArithmetic
            exampleSegments exampleNetwork exampleWeights
            [] [segmentBC; segmentFR; segmentCD] segmentAB);
    [reflexivity | reflexivity | reflexivity |].
  intros [Hin _]%elem_of_cycleNodes. simpl in Hin.
  apply elem_of_cons in Hin as [Hin|Hin]; [discriminate|].
  apply list_elem_of_singleton in Hin. discriminate.
Defined.

(** X2.  The result of [buildNetworkFromSegments] depends on the order of
    the candidate list only through the order of the candidates of equal
    weight: two candidate lists that hold, for every weight, the same
    candidates of that weight in the same order give the same result. *)
Theorem buildNetworkFromSegments_order_of_ties `{FloatArithmetic}
    (segments segments' : list Segment.t) (net0 : Network.t) (w : Weights) :
  (forall q, withKey Segment.getWeight q segments' = withKey Segment.getWeight q segments) ->
  buildNetworkFromSegments segments' net0 w = buildNetworkFromSegments segments net0 w.
Proof.
  intros Hties. unfold buildNetworkFromSegments. f_equal.
  apply (sorted_unique Segment.getWeight).
  - apply sorted_ascending.
  - intros q. by rewrite sorted_withKey.
Qed.

Lemma buildNetworkFromSegments_order_of_ties_witness :
  @buildNetworkFromSegments exactArithmetic (sorted Segment.getWeight exampleSegments)
    exampleNetwork exampleWeights
  = @buildNetworkFromSegments exactArithmetic exampleSegments exampleNetwork exampleWeights.
Proof.
  apply (@buildNetworkFromSegments_order_of_ties exactArithmetic exampleSegments).
  intros q. apply (sorted_withKey Segment.getWeight).
Defined.

(** ** Candidate generation *)

Lemma appendCandidates_length `{Geometry} (f : SegmentFactory.t) (segments : list Segment.t)
    (node1 : Node.t) (rows : list Coordinates) :
  length (appendCandidates f segments node1 rows).2 = (length segments + length rows)%nat.
Proof.
  revert f segments. induction rows as [|c rows IH]; intros f segments; simpl; [lia|].
  destruct (SegmentFactory.getSegment f _ c false) as [f' s].
  rewrite IH, length_app. simpl. lia.
Qed.

Lemma getRows_length (matrix : list Coordinates) (l : list nat) (rows : list Coordinates) :
  getRows matrix l = inr rows -> length rows = length l.
Proof.
  revert rows. induction l as [|i l IH]; intros rows; simpl.
  - by intros [= <-].
  - destruct (getRow matrix i) as [e|c]; [done|]. simpl.
    destruct (getRows matrix l) as [e|cs]; [done|]. simpl.
    intros [= <-]. simpl. by rewrite (IH cs).
Qed.

Lemma candidatesPerNode_count `{Geometry} (kdTree : KDTree.t) (k : Z)
    (f : SegmentFactory.t) (segments : list Segment.t) (networkNodes : list Node.t) :
  1 < k ->
  (Z.to_nat k <= length (KDTree.data kdTree))%nat ->
  (forall x, nearestRows (KDTree.metric kdTree) (KDTree.data kdTree) x
             ≡ₚ seq 0 (length (KDTree.data kdTree))) ->
  exists candidates,
    candidatesPerNode kdTree k (KDTree.data kdTree) f segments networkNodes = inr candidates
    /\ length candidates = (length segments + length networkNodes * Z.to_nat k)%nat.
Proof.
  intros Hk Hn Hranked. revert f segments.
  induction networkNodes as [|node1 rest IH]; intros f segments.
  { eexists. split; [done|]. simpl. lia. }
  simpl. unfold KDTree.query.
  destruct (Z.ltb_spec k 1) as [|_]; [lia|].
  destruct (Z.eqb_spec k 1) as [|_]; [lia|].
  simpl.
  destruct (ranked_rows_valid _ _ (Hranked (Node.getCoordinates node1))) as [Hlen Hvalid].
  rewrite length_take, Hlen, Nat.min_l, Nat.sub_diag, app_nil_r by lia.
  destruct (getRows_valid (KDTree.data kdTree)
              (take (Z.to_nat k)
                 (nearestRows (KDTree.metric kdTree) (KDTree.data kdTree)
                    (Node.getCoordinates node1)))) as [rows Hrows].
  { by apply Forall_take. }
  rewrite Hrows. simpl.
  pose proof (appendCandidates_length f segments node1 rows) as Happ.
  destruct (appendCandidates f segments node1 rows) as [f' segments'].
  destruct (IH f' segments') as (candidates & -> & Hcount).
  eexists. split; [done|].
  apply getRows_length in Hrows. rewrite length_take, Hlen, Nat.min_l in Hrows by lia.
  simpl in Happ. lia.
Qed.

(** X3.  Without an existing network, when at least two neighbours are
    asked for, there are at least as many nodes as neighbours, and the
    index ranks every row of the matrix once, [generateSegments] returns
    the network of singletons together with exactly [k] candidates per
    node, [n * k] in all: the node itself and repeated pairs are not
    filtered out. *)
Theorem generateSegments_candidate_count `{Geometry} `{ExistingNetwork}
    (self : VariableStore) (nodes : list Node.t) (computeDistance : DistanceMetric)
    (proj4 : string) :
  let segmentFactory := SegmentFactory.new nodes computeDistance proj4 in
  let networkNodes := SegmentFactory.getNodes segmentFactory in
  let k := getMaximumNearestNeighborCount self in
  getExistingNetworks self = EmptyString ->
  1 < k <= Z.of_nat (length networkNodes) ->
  (forall data x, nearestRows computeDistance data x ≡ₚ seq 0 (length data)) ->
  exists candidates,
    generateSegments self nodes computeDistance proj4
    = inr (candidates, Network.new segmentFactory)
    /\ length candidates = (length networkNodes * Z.to_nat k)%nat.
Proof.
  intros segmentFactory networkNodes k Hpath Hk Hranked.
  unfold generateSegments. fold segmentFactory. fold networkNodes. fold k. rewrite Hpath.
  rewrite bool_decide_eq_true_2 by done. simpl.
  destruct (map Node.getCoordinates networkNodes) as [|c matrix] eqn:Hmatrix.
  { destruct networkNodes; [simpl in Hk; lia | done]. }
  assert (length networkNodes = S (length matrix)) as Hlen.
  { by rewrite <- (length_map Node.getCoordinates), Hmatrix. }
  simpl.
  change (c :: matrix) with (KDTree.data (KDTree.mk computeDistance (c :: matrix))) at 2.
  destruct (candidatesPerNode_count (KDTree.mk computeDistance (c :: matrix)) k
              segmentFactory [] networkNodes)
    as (candidates & -> & Hcount).
  - lia.
  - cbn [KDTree.data length]. unfold Coordinates in *. lia.
  - intros x. apply Hranked.
  - simpl. eexists. split; [done|]. simpl in Hcount. lia.
Qed.

Lemma rowsByDistance_ranked (data : list Coordinates) (x : Coordinates) :
  rowsByDistance data x ≡ₚ seq 0 (length data).
Proof. unfold rowsByDistance. apply sorted_Permutation. Qed.

Lemma generateSegments_candidate_count_witness :
  exists candidates,
    @generateSegments taxicabGeometry noExistingNetwork
      (scenarioStore (Given 2)) scenarioNodes computeEuclideanDistance "+proj=utm +units=m"
    = inr (candidates,
           Network.new (SegmentFactory.new scenarioNodes computeEuclideanDistance
                          "+proj=utm +units=m"))
    /\ length candidates = 8%nat.
Proof.
  apply (@generateSegments_candidate_count taxicabGeometry noExistingNetwork
           (scenarioStore (Given 2)) scenarioNodes computeEuclideanDistance
           "+proj=utm +units=m").
  - reflexivity.
  - by vm_compute.
  - intros data x. apply rowsByDistance_ranked.
Defined.

Lemma getRow_cases (matrix : list Coordinates) (i : nat) :
  getRow matrix i = inl IndexError \/ exists c, getRow matrix i = inr c.
Proof. unfold getRow. destruct (matrix !! i); eauto. Qed.

Lemma getRow_in_range (matrix : list Coordinates) (i : nat) :
  (i < length matrix)%nat -> exists c, getRow matrix i = inr c.
Proof.
  intros Hi. unfold getRow.
  destruct (lookup_lt_is_Some_2 matrix i Hi) as [c ->]. by eexists.
Qed.

(** X4.  With one nearest neighbour configured, [generateSegments] never
    returns for a nonempty node set: the index answers with a single
    index, the matrix yields one row instead of a matrix of rows, and the
    loop over that row meets numbers where it expects coordinate pairs.
    The error is a [TypeError] when the index ranks every row once. *)
Theorem generateSegments_one_neighbour_raises `{Geometry} `{ExistingNetwork}
    (self : VariableStore) (nodes : list Node.t) (computeDistance : DistanceMetric)
    (proj4 : string) :
  let networkNodes := SegmentFactory.getNodes (SegmentFactory.new nodes computeDistance proj4) in
  getExistingNetworks self = EmptyString ->
  getMaximumNearestNeighborCount self = 1 ->
  networkNodes <> [] ->
  (generateSegments self nodes computeDistance proj4 = inl TypeError
   \/ generateSegments self nodes computeDistance proj4 = inl IndexError)
  /\ ((forall data x, nearestRows computeDistance data x ≡ₚ seq 0 (length data)) ->
      generateSegments self nodes computeDistance proj4 = inl TypeError).
Proof.
  intros networkNodes Hpath Hk Hnodes.
  unfold generateSegments. fold networkNodes. rewrite Hpath, Hk.
  rewrite bool_decide_eq_true_2 by done. simpl.
  destruct networkNodes as [|node1 rest] eqn:Hnn; [done|].
  cbn -[getRow]. unfold KDTree.query. cbn -[getRow].
  change (Z.to_nat 1) with 1%nat.
  set (matrix := Node.getCoordinates node1 :: map Node.getCoordinates rest).
  set (rows := nearestRows computeDistance matrix (Node.getCoordinates node1)).
  split.
  - match goal with
    | |- context [getRow matrix ?i] =>
        destruct (getRow_cases matrix i) as [->|[c ->]]; cbn; auto
    end.
  - intros Hranked.
    destruct (ranked_rows_valid rows (length matrix) (Hranked _ _)) as [Hlen Hvalid].
    destruct rows as [|i rows']; [done|].
    apply Forall_cons in Hvalid as [Hi _]. cbn -[getRow].
    destruct (getRow_cases matrix i) as [Herr|[c ->]]; [|done].
    destruct (getRow_in_range matrix i Hi) as [c Hc]. congruence.
Qed.

Lemma generateSegments_one_neighbour_raises_witness :
  @generateSegments taxicabGeometry noExistingNetwork
    (scenarioStore (Given 1)) scenarioNodes computeEuclideanDistance "+proj=utm +units=m"
  = inl TypeError.
Proof.
  apply (@generateSegments_one_neighbour_raises taxicabGeometry noExistingNetwork
           (scenarioStore (Given 1)) scenarioNodes computeEuclideanDistance "+proj=utm +units=m");
    [reflexivity | reflexivity | by vm_compute |].
  intros data x. apply rowsByDistance_ranked.
Defined.

(** X5.  When a path to existing networks is configured,
    [generateSegments] first asks the state of the store for the base
    path and then checks the archive, before anything is done with the
    nodes: a store without state raises [TypeError] and a store with an
    empty state raises [IndexError]; with a base path, a missing archive
    and an archive without shapefile each raise their [VariableError].
    All this holds whatever the nodes and the neighbour count are, also
    for inputs on which the spatial index would fail. *)
Theorem generateSegments_archive_errors `{Geometry} `{ExistingNetwork}
    (self : VariableStore) (nodes : list Node.t) (computeDistance : DistanceMetric)
    (proj4 : string) :
  getExistingNetworks self <> EmptyString ->
  (state self = None ->
   generateSegments self nodes computeDistance proj4 = inl TypeError)
  /\ (state self = Some [] ->
      generateSegments self nodes computeDistance proj4 = inl IndexError)
  /\ (forall basePath scenarios,
        state self = Some (basePath :: scenarios) ->
        (archiveAt basePath (getExistingNetworks self) = NoArchive ->
         generateSegments self nodes computeDistance proj4
         = inl (VariableError
                  "Expected ZIP archive containing shapefile for existing networks"))
        /\ (archiveAt basePath (getExistingNetworks self) = NoShapefile ->
            generateSegments self nodes computeDistance proj4
            = inl (VariableError
                     "Could not find shapefile in ZIP archive for existing networks"))).
Proof.
  intros Hpath. unfold generateSegments, getBasePath.
  rewrite bool_decide_eq_false_2 by done.
  split; [by intros ->|].
  split; [by intros ->|].
  intros basePath scenarios ->. cbn [bind].
  split; by intros ->.
Qed.

Lemma generateSegments_archive_errors_witness :
  @generateSegments taxicabGeometry noExistingNetwork
    (mkStore (mkValues Missing Missing (Given "networks.zip")) [] None)
    [] computeEuclideanDistance "+proj=utm +units=m"
  = inl TypeError
  /\ @generateSegments taxicabGeometry noExistingNetwork
       (mkStore (mkValues Missing Missing (Given "networks.zip")) [] (Some ["/data"]))
       [] computeEuclideanDistance "+proj=utm +units=m"
     = inl (VariableError "Expected ZIP archive containing shapefile for existing networks").
Proof.
  split.
  - by apply (@generateSegments_archive_errors taxicabGeometry noExistingNetwork
                (mkStore (mkValues Missing Missing (Given "networks.zip")) [] None)).
  - destruct (@generateSegments_archive_errors taxicabGeometry noExistingNetwork
                (mkStore (mkValues Missing Missing (Given "networks.zip")) []
                   (Some ["/data"]))
                [] computeEuclideanDistance "+proj=utm +units=m")
      as (_ & _ & Harchive); [done|].
    by apply (Harchive "/data" []).
Defined.

Lemma appendCandidates_prefix `{Geometry} (f : SegmentFactory.t) (segments : list Segment.t)
    (node1 : Node.t) (rows : list Coordinates) :
  exists more, (appendCandidates f segments node1 rows).2 = segments ++ more.
Proof.
  revert f segments. induction rows as [|c rows IH]; intros f segments; simpl.
  - exists []. by rewrite app_nil_r.
  - destruct (SegmentFactory.getSegment f _ c false) as [f' s].
    destruct (IH f' (segments ++ [s])) as [more ->].
    exists (s :: more). by rewrite <- app_assoc.
Qed.

Lemma candidatesPerNode_prefix `{Geometry} (kdTree : KDTree.t) (k : Z)
    (matrix : list Coordinates) (f : SegmentFactory.t) (segments : list Segment.t)
    (networkNodes : list Node.t) (candidates : list Segment.t) :
  candidatesPerNode kdTree k matrix f segments networkNodes = inr candidates ->
  exists more, candidates = segments ++ more.
Proof.
  revert f segments. induction networkNodes as [|n rest IH]; intros f segments; simpl.
  - intros [= <-]. exists []. by rewrite app_nil_r.
  - destruct (KDTree.query kdTree (Node.getCoordinates n) k) as [e|idx]; simpl; [done|].
    destruct (getitem matrix idx) as [e|[row|rows]]; simpl; [done|done|].
    destruct (appendCandidates_prefix f segments n rows) as [more1 Hp].
    destruct (appendCandidates f segments n rows) as [f' segments']. simpl in Hp. subst.
    intros Hc. apply IH in Hc as [more ->].
    exists (more1 ++ more). by rewrite app_assoc.
Qed.

(** X6.  With the shapefile of an existing network, [generateSegments]
    appends one subnet, made of all the segments of the existing network
    between its transformed points, after the subnets the network starts
    with, and the candidates begin with the projections of the nodes on
    that network; the candidates to the nearest neighbours follow, [k]
    per node as without existing network. *)
Theorem generateSegments_existing_network `{Geometry} `{ExistingNetwork}
    (self : VariableStore) (nodes : list Node.t) (computeDistance : DistanceMetric)
    (proj4 : string) (basePath : string) (scenarios : list string)
    (networkProj4 : string) (networkCoordinatePairs : list (Coordinates * Coordinates)) :
  let segmentFactory := SegmentFactory.new nodes computeDistance proj4 in
  let networkNodes := SegmentFactory.getNodes segmentFactory in
  let k := getMaximumNearestNeighborCount self in
  let existing :=
    (existingSegments segmentFactory (transform_point networkProj4 proj4)
       networkCoordinatePairs).2 in
  let net :=
    Network.mk
      (Network.subnets (Network.new segmentFactory) ++ [Subnet.ofSegments existing])
      (Network.history (Network.new segmentFactory)) in
  getExistingNetworks self <> EmptyString ->
  state self = Some (basePath :: scenarios) ->
  archiveAt basePath (getExistingNetworks self)
  = Shapefile networkProj4 networkCoordinatePairs ->
  1 < k <= Z.of_nat (length networkNodes) ->
  (forall data x, nearestRows computeDistance data x ≡ₚ seq 0 (length data)) ->
  exists candidates,
    generateSegments self nodes computeDistance proj4
    = inr (project net networkNodes ++ candidates, net)
    /\ length candidates = (length networkNodes * Z.to_nat k)%nat.
Proof.
  intros segmentFactory networkNodes k existing net Hpath Hstate Harchive Hk Hranked.
  unfold generateSegments, getBasePath.
  fold segmentFactory. fold networkNodes. fold k.
  rewrite bool_decide_eq_false_2 by done. rewrite Hstate. cbn [bind]. rewrite Harchive.
  subst existing net.
  destruct (existingSegments segmentFactory _ networkCoordinatePairs) as [f existing].
  cbn [snd bind].
  set (net := Network.mk _ _).
  destruct (map Node.getCoordinates networkNodes) as [|c matrix] eqn:Hmatrix.
  { destruct networkNodes; [simpl in Hk; lia | done]. }
  assert (length networkNodes = S (length matrix)) as Hlen.
  { by rewrite <- (length_map Node.getCoordinates), Hmatrix. }
  cbn [KDTree.new bind].
  change (c :: matrix) with (KDTree.data (KDTree.mk computeDistance (c :: matrix))) at 2.
  destruct (candidatesPerNode_count (KDTree.mk computeDistance (c :: matrix)) k
              f (project net networkNodes) networkNodes)
    as (candidates & Hrun & Hcount).
  - lia.
  - cbn [KDTree.data length]. unfold Coordinates in *. lia.
  - intros x. apply Hranked.
  - rewrite Hrun. cbn [bind].
    destruct (candidatesPerNode_prefix _ _ _ _ _ _ _ Hrun) as [more ->].
    exists more. split; [done|].
    rewrite length_app in Hcount. lia.
Qed.

Lemma generateSegments_existing_network_witness :
  let segmentFactory :=
    SegmentFactory.new scenarioNodes computeEuclideanDistance "+proj=utm +units=m" in
  let existing :=
    (@existingSegments taxicabGeometry segmentFactory (fun c => c)
       [((0, 5)%Q, (5, 5)%Q)]).2 in
  let net :=
    Network.mk (map Subnet.singleton scenarioNodes ++ [Subnet.ofSegments existing]) [] in
  exists candidates,
    @generateSegments taxicabGeometry roadNetwork
      (mkStore (mkValues Missing (Given 2) (Given "roads.zip")) [] (Some ["/data"]))
      scenarioNodes computeEuclideanDistance "+proj=utm +units=m"
    = inr (@project roadNetwork net scenarioNodes ++ candidates, net)
    /\ length candidates = 8%nat.
Proof.
  apply (@generateSegments_existing_network taxicabGeometry roadNetwork
           (mkStore (mkValues Missing (Given 2) (Given "roads.zip")) [] (Some ["/data"]))
           scenarioNodes computeEuclideanDistance "+proj=utm +units=m"
           "/data" [] "+proj=longlat" [((0, 5)%Q, (5, 5)%Q)]).
  - done.
  - reflexivity.
  - reflexivity.
  - by vm_compute.
  - intros data x. apply rowsByDistance_ranked.
Defined.

Import Variables.

(** ** Keys of variables *)

Lemma append_nil_l (b : string) : EmptyString +:+ b = b.
Proof. reflexivity. Qed.

Lemma append_cons (x : Ascii.ascii) (a b : string) :
  String x a +:+ b = String x (a +:+ b).
Proof. reflexivity. Qed.

Lemma append_assoc (a b c : string) : (a +:+ b) +:+ c = a +:+ (b +:+ c).
Proof.
  induction a as [|x a IH]; [done|]. by rewrite !append_cons, IH.
Qed.

Lemma append_nil_r (a : string) : a +:+ EmptyString = a.
Proof. induction a as [|x a IH]; [done|]. by rewrite append_cons, IH. Qed.

Lemma mapChars_app (f : Ascii.ascii -> string) (a b : string) :
  mapChars f (a +:+ b) = mapChars f a +:+ mapChars f b.
Proof.
  induction a as [|x a IH]; [done|].
  rewrite append_cons. cbn [mapChars]. by rewrite IH, append_assoc.
Qed.

Lemma mapChars_ext (f g : Ascii.ascii -> string) (s : string) :
  (forall c, f c = g c) -> mapChars f s = mapChars g s.
Proof.
  intros Hfg. induction s as [|x s IH]; [done|]. cbn [mapChars]. by rewrite Hfg, IH.
Qed.

Lemma mapChars_mapChars (f g : Ascii.ascii -> string) (s : string) :
  mapChars g (mapChars f s) = mapChars (fun c => mapChars g (f c)) s.
Proof.
  induction s as [|x s IH]; [done|]. cbn [mapChars]. by rewrite mapChars_app, IH.
Qed.

(** Replacing a single character is a replacement character by character. *)
Lemma replace_char (d : Ascii.ascii) (new s : string) :
  PyString.replace (String d EmptyString) new s
  = mapChars (fun c => if Ascii.eqb c d then new else String c EmptyString) s.
Proof.
  unfold PyString.replace. cbn [PyString.isEmpty].
  induction s as [|x s IH]; [done|].
  cbn [PyString.replaceFrom mapChars String.prefix String.length Nat.sub].
  destruct (Ascii.ascii_dec d x) as [->|Hne].
  - rewrite Ascii.eqb_refl.
    replace (String.prefix EmptyString s) with true by (by destruct s).
    by rewrite IH.
  - rewrite (proj2 (Ascii.eqb_neq x d)) by congruence. by rewrite IH.
Qed.

Lemma formatKey_encode (modelType section option : string) :
  formatKey modelType section option
  = mapChars encodeChar (modelType +:+ separator +:+ section +:+ separator +:+ option).
Proof.
  unfold formatKey. rewrite !replace_char, !mapChars_mapChars.
  apply mapChars_ext. intros c. unfold encodeChar.
  destruct (Ascii.eqb_spec c " "%char) as [->|Hs]; [done|].
  cbn [mapChars]. rewrite append_nil_r.
  destruct (Ascii.eqb_spec c "("%char) as [->|Hl]; [done|].
  cbn [mapChars]. rewrite append_nil_r.
  by destruct (Ascii.eqb_spec c ")"%char) as [->|Hr].
Qed.

Lemma replaceFrom_pair_skip (d x : Ascii.ascii) (new t : string) :
  x <> d ->
  PyString.replaceFrom (twice d) new 0 (String x t)
  = String x (PyString.replaceFrom (twice d) new 0 t).
Proof.
  intros Hx. cbn [PyString.replaceFrom twice String.prefix].
  destruct (Ascii.ascii_dec d x); [congruence|done].
Qed.

Lemma replaceFrom_pair_hit (d : Ascii.ascii) (new t : string) :
  PyString.replaceFrom (twice d) new 0 (String d (String d t))
  = new +:+ PyString.replaceFrom (twice d) new 0 t.
Proof.
  cbn [PyString.replaceFrom twice String.prefix String.length Nat.sub].
  destruct (Ascii.ascii_dec d d); [|done].
  by replace (String.prefix EmptyString t) with true by (by destruct t).
Qed.

Lemma replaceFrom_pair_without (d : Ascii.ascii) (new t u : string) :
  without d t = true ->
  PyString.replaceFrom (twice d) new 0 (t +:+ u)
  = t +:+ PyString.replaceFrom (twice d) new 0 u.
Proof.
  induction t as [|x t IH]; [done|].
  cbn [without]. intros [Hx Ht]%andb_true_iff.
  apply negb_true_iff, Ascii.eqb_neq in Hx.
  by rewrite !append_cons, replaceFrom_pair_skip, IH.
Qed.

(** Decoding one digit twice, when every character was written either as
    that twice or without the digit. *)
Lemma replace_pairs (d : Ascii.ascii) (new : string) (f g : Ascii.ascii -> string)
    (allowed : Ascii.ascii -> bool) (s : string) :
  (forall c, allowed c = true ->
     (f c = twice d /\ g c = new) \/ (without d (f c) = true /\ g c = f c)) ->
  everyChar allowed s = true ->
  PyString.replace (twice d) new (mapChars f s) = mapChars g s.
Proof.
  intros Hchar. unfold PyString.replace. cbn [twice PyString.isEmpty].
  fold (twice d).
  induction s as [|x s IH]; [done|].
  cbn [everyChar mapChars]. intros [Hx Hs]%andb_true_iff.
  destruct (Hchar x Hx) as [[-> ->]|[Hwithout ->]].
  - unfold twice at 2. rewrite !append_cons, append_nil_l.
    by rewrite replaceFrom_pair_hit, IH.
  - by rewrite replaceFrom_pair_without, IH.
Qed.

Lemma decode_encode (s : string) :
  everyChar decodable s = true ->
  PyString.replace "33" ")"
    (PyString.replace "22" "("
       (PyString.replace "11" " " (mapChars encodeChar s))) = s.
Proof.
  intros Hs.
  set (e1 := fun c : Ascii.ascii =>
               if Ascii.eqb c "("%char then "22"
               else if Ascii.eqb c ")"%char then "33" else String c EmptyString).
  set (e2 := fun c : Ascii.ascii =>
               if Ascii.eqb c ")"%char then "33" else String c EmptyString).
  change "11" with (twice "1"%char).
  change "22" with (twice "2"%char).
  change "33" with (twice "3"%char).
  rewrite (replace_pairs "1"%char " " encodeChar e1 decodable s); [| |done].
  rewrite (replace_pairs "2"%char "(" e1 e2 decodable s); [| |done].
  rewrite (replace_pairs "3"%char ")" e2 (fun c => String c EmptyString) decodable s);
    [| |done].
  - clear. induction s as [|x s IH]; [done|]. cbn [mapChars]. by rewrite IH.
  - intros c Hc. unfold decodable in Hc. unfold e2.
    apply andb_true_iff in Hc as [[H1 H2]%andb_true_iff H3].
    destruct (Ascii.eqb_spec c ")"%char) as [->|Hr]; [by left|].
    right. split; [|done]. cbn [without]. by rewrite H3.
  - intros c Hc. unfold decodable in Hc. unfold e1, e2.
    apply andb_true_iff in Hc as [[H1 H2]%andb_true_iff H3].
    destruct (Ascii.eqb_spec c "("%char) as [->|Hl]; [by left|].
    right. destruct (Ascii.eqb_spec c ")"%char) as [->|Hr]; [done|].
    split; [|done]. cbn [without]. by rewrite H2.
  - intros c Hc. unfold decodable in Hc. unfold encodeChar, e1.
    apply andb_true_iff in Hc as [[H1 H2]%andb_true_iff H3].
    destruct (Ascii.eqb_spec c " "%char) as [->|Hs']; [by left|].
    right. destruct (Ascii.eqb_spec c "("%char) as [->|Hl]; [done|].
    destruct (Ascii.eqb_spec c ")"%char) as [->|Hr]; [done|].
    split; [|done]. cbn [without]. by rewrite H1.
Qed.

Lemma splitFrom_without (cur a : string) :
  without "0"%char a = true ->
  PyString.splitFrom separator 0 cur a = [cur +:+ a].
Proof.
  revert cur. induction a as [|x a IH]; intros cur.
  - by rewrite append_nil_r.
  - cbn [without]. intros [Hx Ha]%andb_true_iff.
    apply negb_true_iff, Ascii.eqb_neq in Hx.
    cbn [PyString.splitFrom separator String.prefix].
    destruct (Ascii.ascii_dec "0"%char x); [congruence|].
    by rewrite IH, append_assoc.
Qed.

Lemma splitFrom_hit (cur rest : string) :
  PyString.splitFrom separator 0 cur (separator +:+ rest)
  = cur :: PyString.splitFrom separator 0 EmptyString rest.
Proof.
  unfold separator at 2. rewrite !append_cons, append_nil_l.
  cbn [PyString.splitFrom separator String.prefix String.length Nat.sub].
  destruct (Ascii.ascii_dec "0"%char "0"%char); [|done].
  by replace (String.prefix EmptyString rest) with true by (by destruct rest).
Qed.

Lemma splitFrom_separator (cur a rest : string) :
  without "0"%char a = true ->
  PyString.splitFrom separator 0 cur (a +:+ separator +:+ rest)
  = (cur +:+ a) :: PyString.splitFrom separator 0 EmptyString rest.
Proof.
  revert cur. induction a as [|x a IH]; intros cur.
  - intros _. by rewrite append_nil_l, append_nil_r, splitFrom_hit.
  - cbn [without]. intros [Hx Ha]%andb_true_iff.
    apply negb_true_iff, Ascii.eqb_neq in Hx.
    rewrite append_cons.
    cbn [PyString.splitFrom separator String.prefix].
    destruct (Ascii.ascii_dec "0"%char x); [congruence|].
    fold separator. by rewrite IH, append_assoc.
Qed.

Lemma everyChar_app (p : Ascii.ascii -> bool) (a b : string) :
  everyChar p (a +:+ b) = everyChar p a && everyChar p b.
Proof.
  induction a as [|x a IH]; [done|].
  rewrite append_cons. cbn [everyChar]. by rewrite IH, andb_assoc.
Qed.

Lemma withoutKeyDigits_decodable (s : string) :
  withoutKeyDigits s = true -> everyChar decodable s = true.
Proof.
  unfold withoutKeyDigits. rewrite !andb_true_iff. intros [[[_ H1] H2] H3].
  induction s as [|x s IH]; [done|].
  cbn [without everyChar] in *.
  apply andb_true_iff in H1 as [H1 H1'], H2 as [H2 H2'], H3 as [H3 H3'].
  unfold decodable at 1. by rewrite H1, H2, H3, IH.
Qed.

Lemma withoutKeyDigits_zero (s : string) :
  withoutKeyDigits s = true -> without "0"%char s = true.
Proof. unfold withoutKeyDigits. rewrite !andb_true_iff. tauto. Qed.

Lemma everyChar_mapChars (p : Ascii.ascii -> bool) (f : Ascii.ascii -> string) (s : string) :
  (forall c, everyChar p (f c) = true) -> everyChar p (mapChars f s) = true.
Proof.
  intros Hf. induction s as [|x s IH]; [done|].
  cbn [mapChars]. by rewrite everyChar_app, Hf, IH.
Qed.

(** X7.  A key holds no space and no parenthesis, whatever the names are:
    [formatKey] writes 11 for every space, 22 and 33 for the parentheses. *)
Theorem formatKey_has_no_space_or_parenthesis (modelType section option : string) :
  everyChar
    (fun c => negb (Ascii.eqb c " "%char) && negb (Ascii.eqb c "("%char)
              && negb (Ascii.eqb c ")"%char))
    (formatKey modelType section option) = true.
Proof.
  rewrite formatKey_encode. apply everyChar_mapChars.
  intros c. unfold encodeChar.
  destruct (Ascii.eqb_spec c " "%char) as [->|Hs]; [done|].
  destruct (Ascii.eqb_spec c "("%char) as [->|Hl]; [done|].
  destruct (Ascii.eqb_spec c ")"%char) as [->|Hr]; [done|].
  cbn [everyChar].
  by rewrite (proj2 (Ascii.eqb_neq c " "%char)), (proj2 (Ascii.eqb_neq c "("%char)),
    (proj2 (Ascii.eqb_neq c ")"%char)).
Qed.

(** X8.  [parseKey] undoes [formatKey] on names that hold none of the
    digits 0, 1, 2 and 3: it gives back the model type, the section and the
    option, each without the whitespace around it, so exactly the three
    names when they have no whitespace around them. *)
Theorem parseKey_formatKey (modelType section option : string) :
  withoutKeyDigits modelType = true ->
  withoutKeyDigits section = true ->
  withoutKeyDigits option = true ->
  parseKey (formatKey modelType section option)
  = inr [PyString.strip modelType; PyString.strip section; PyString.strip option]
  /\ (PyString.strip modelType = modelType ->
      PyString.strip section = section ->
      PyString.strip option = option ->
      parseKey (formatKey modelType section option) = inr [modelType; section; option]).
Proof.
  intros Hm Hs Ho.
  assert (parseKey (formatKey modelType section option)
          = inr [PyString.strip modelType; PyString.strip section; PyString.strip option])
    as Hparse.
  { unfold parseKey. rewrite formatKey_encode, decode_encode.
    - unfold PyString.split. cbn [PyString.isEmpty separator]. fold separator.
      rewrite splitFrom_separator by by apply withoutKeyDigits_zero.
      rewrite splitFrom_separator by by apply withoutKeyDigits_zero.
      rewrite splitFrom_without by by apply withoutKeyDigits_zero.
      by rewrite !append_nil_l.
    - rewrite !everyChar_app, !andb_true_iff.
      repeat split; (by apply withoutKeyDigits_decodable) || done. }
  split; [done|]. intros Hm' Hs' Ho'. by rewrite Hparse, Hm', Hs', Ho'.
Qed.

Lemma parseKey_formatKey_witness :
  parseKey (formatKey "cost" "system (grid)" "line loss")
  = inr ["cost"; "system (grid)"; "line loss"].
Proof.
  apply (parseKey_formatKey "cost" "system (grid)" "line loss"); reflexivity.
Defined.

(** X9.  Keys are not unique.  A space and the digits 11 are written
    alike, as are a parenthesis and the digits 22 or 33, and a separator
    inside a name cannot be told from the one between the names: the
    names on the left and on the right get the same key. *)
Theorem formatKey_collisions (modelType a b option : string) :
  formatKey modelType (a +:+ " " +:+ b) option
  = formatKey modelType (a +:+ "11" +:+ b) option
  /\ formatKey modelType (a +:+ "(" +:+ b) option
     = formatKey modelType (a +:+ "22" +:+ b) option
  /\ formatKey modelType (a +:+ ")" +:+ b) option
     = formatKey modelType (a +:+ "33" +:+ b) option
  /\ formatKey modelType (a +:+ separator +:+ b) option
     = formatKey modelType a (b +:+ separator +:+ option).
Proof.
  rewrite !formatKey_encode, !mapChars_app.
  repeat split; try done.
  by rewrite <- !mapChars_app, !append_assoc.
Qed.


(** ** The choice of the metric *)

Lemma prefix_iff (p s : string) :
  String.prefix p s = true <-> exists post, s = p +:+ post.
Proof.
  revert s. induction p as [|x p IH]; intros s.
  - split; [intros _; by exists s | by destruct s].
  - destruct s as [|y s]; cbn [String.prefix].
    + split; [done | by intros [post Hpost]].
    + destruct (Ascii.ascii_dec x y) as [->|Hne].
      * rewrite IH. split; intros [post Hpost]; exists post.
        -- by rewrite append_cons, <- Hpost.
        -- rewrite append_cons in Hpost. congruence.
      * split; [done|]. intros [post Hpost].
        rewrite append_cons in Hpost. congruence.
Qed.

Lemma index_substring (p s : string) :
  (exists m, String.index 0 p s = Some m) <-> exists pre post, s = pre +:+ p +:+ post.
Proof.
  induction s as [|y s IH].
  - cbn [String.index]. split.
    + intros [m Hm]. destruct p; [|done]. by exists EmptyString, EmptyString.
    + intros (pre & post & Hs). destruct pre; [|done].
      destruct p; [by eexists | done].
  - cbn [String.index].
    destruct (String.prefix p (String y s)) eqn:Hp.
    + split; [|by eexists]. intros _.
      apply prefix_iff in Hp as [post Hpost]. by exists EmptyString, post.
    + split.
      * intros [m Hm]. destruct (String.index 0 p s) as [n|] eqn:Hn; [|done].
        destruct (proj1 IH) as (pre & post & ->); [by eexists|].
        by exists (String y pre), post.
      * intros (pre & post & Hs). destruct pre as [|z pre].
        { rewrite append_nil_l in Hs.
          assert (String.prefix p (String y s) = true) as Hp'.
          { apply prefix_iff. by exists post. }
          congruence. }
        rewrite append_cons in Hs. injection Hs as -> ->.
        destruct (proj2 IH) as [n ->]; [by exists pre, post|]. by eexists.
Qed.

(** X10.  [buildNetworkFromNodes] generates the candidates with the
    planar distance exactly when the projection holds the text [+units=m]
    somewhere, also as the beginning of a longer unit, and with the
    spherical distance otherwise; the projection itself is handed on to
    [generateSegments] as it is. *)
Theorem metric_chosen_by_units_text `{Geometry} `{ExistingNetwork} `{FloatArithmetic}
    (self : VariableStore) (nodes : list Node.t) (proj4 : string) (w : Weights) :
  let holdsUnits := exists pre post, proj4 = pre +:+ "+units=m" +:+ post in
  let finish := fun generated : list Segment.t * Network.t =>
    let st := buildNetworkFromSegments generated.1 generated.2 w in
    inr (mkState
           (eliminateSmallSubnets (getMinimumNodeCountPerSubnetwork self) (net st))
           (weights st) (calls st)) in
  (unitsInMeters proj4 = true <-> holdsUnits)
  /\ (holdsUnits ->
      buildNetworkFromNodes self nodes proj4 w
      = bind (generateSegments self nodes computeEuclideanDistance proj4) finish)
  /\ (~ holdsUnits ->
      buildNetworkFromNodes self nodes proj4 w
      = bind (generateSegments self nodes computeSphericalDistance proj4) finish).
Proof.
  intros holdsUnits finish.
  assert (unitsInMeters proj4 = true <-> holdsUnits) as Hunits.
  { unfold unitsInMeters, holdsUnits. rewrite <- index_substring.
    destruct (String.index 0 "+units=m" proj4); split; try done; eauto.
    by intros [m Hm]. }
  assert (forall computeDistance,
            bind (generateSegments self nodes computeDistance proj4)
              (fun '(segments, net0) => finish (segments, net0))
            = bind (generateSegments self nodes computeDistance proj4) finish) as Hbind.
  { intros computeDistance.
    by destruct (generateSegments self nodes computeDistance proj4) as [e|[segments net0]]. }
  split; [done|]. split.
  - intros Hholds. unfold buildNetworkFromNodes.
    rewrite (proj2 Hunits Hholds). apply Hbind.
  - intros Hnone. unfold buildNetworkFromNodes.
    destruct (unitsInMeters proj4); [destruct Hnone; by apply Hunits|].
    apply Hbind.
Qed.

Lemma metric_chosen_by_units_text_witness :
  @buildNetworkFromNodes taxicabGeometry noExistingNetwork exactArithmetic
    (scenarioStore (Given 2)) scenarioNodes "+proj=utm +units=mm" exampleWeights
  = bind (@generateSegments taxicabGeometry noExistingNetwork
            (scenarioStore (Given 2)) scenarioNodes computeEuclideanDistance
            "+proj=utm +units=mm")
      (fun generated =>
         let st := @buildNetworkFromSegments exactArithmetic
                     generated.1 generated.2 exampleWeights in
         inr (mkState
                (eliminateSmallSubnets
                   (getMinimumNodeCountPerSubnetwork (scenarioStore (Given 2))) (net st))
                (weights st) (calls st))).
Proof.
  destruct (@metric_chosen_by_units_text taxicabGeometry noExistingNetwork exactArithmetic
              (scenarioStore (Given 2)) scenarioNodes "+proj=utm +units=mm" exampleWeights)
    as (_ & Hplanar & _).
  apply Hplanar. by exists "+proj=utm ", "m".
Defined.

(** ** Validation of the variable classes *)

Lemma validateAliases_spec variableClass variableAliases byAlias :
  match validateAliases variableClass variableAliases byAlias with
  | inr byAlias' =>
      NoDup variableAliases
      /\ (forall a, a ∈ variableAliases -> byAlias !! a = None)
      /\ (forall a, is_Some (byAlias' !! a) <-> is_Some (byAlias !! a) \/ a ∈ variableAliases)
  | inl _ =>
      ~ (NoDup variableAliases /\ forall a, a ∈ variableAliases -> byAlias !! a = None)
  end.
Proof.
  revert byAlias.
  induction variableAliases as [|a rest IH]; intros byAlias; simpl.
  - split; [constructor|].
    split; [intros a Ha; inversion Ha|].
    intros a; split; [auto|intros [?|Ha]; [done|inversion Ha]].
  - destruct (byAlias !! a) eqn:Hm.
    + intros [_ Hnone].
      specialize (Hnone a (list_elem_of_here _ _)). congruence.
    + specialize (IH (<[a := className variableClass]> byAlias)).
      destruct (validateAliases variableClass rest _) as [e|byAlias'].
      * intros [Hnd Hnone]. apply IH.
        apply NoDup_cons in Hnd as [Hnotin Hnd].
        split; [done|].
        intros b Hb. rewrite lookup_insert_ne.
        -- apply Hnone. now right.
        -- intros ->. done.
      * destruct IH as (Hnd & Hnone & Hdom).
        assert (Hnotin : a ∉ rest).
        { intros Hin. specialize (Hnone a Hin).
          rewrite lookup_insert_eq in Hnone. discriminate. }
        split; [apply NoDup_cons; done|].
        split.
        -- intros b Hb. apply elem_of_cons in Hb as [->|Hb]; [done|].
           specialize (Hnone b Hb).
           rewrite lookup_insert_ne in Hnone; [done|].
           intros ->. done.
        -- intros b. rewrite Hdom, lookup_insert_is_Some, elem_of_cons.
           destruct (decide (a = b)) as [->|Hne]; [tauto|].
           split.
           ++ intros [[?|[_ ?]]|?]; tauto.
           ++ intros [?|[?|?]]; [tauto|congruence|tauto].
Qed.

Lemma validateFrom_spec variableClasses byName byAlias :
  validateFrom variableClasses byName byAlias = inr tt
  <-> Forall named variableClasses
      /\ NoDup (map variableName variableClasses)
      /\ (forall n, n ∈ map variableName variableClasses -> byName !! n = None)
      /\ NoDup (flat_map aliases variableClasses)
      /\ (forall a, a ∈ flat_map aliases variableClasses -> byAlias !! a = None).
Proof.
  revert byName byAlias.
  induction variableClasses as [|c rest IH]; intros byName byAlias; simpl.
  - split; [intros _|done].
    repeat split; try constructor; intros x Hx; inversion Hx.
  - destruct (PyString.isEmpty (sectionName c)) eqn:Hs; simpl.
    { split; [discriminate|]. intros (Hn & _). inversion Hn as [|? ? [Hs' _] _]. congruence. }
    destruct (PyString.isEmpty (optionName c)) eqn:Ho; simpl.
    { split; [discriminate|]. intros (Hn & _). inversion Hn as [|? ? [_ Ho'] _]. congruence. }
    destruct (byName !! variableName c) eqn:Hname.
    { split; [discriminate|]. intros (_ & _ & Hnone & _).
      specialize (Hnone (variableName c) (list_elem_of_here _ _)). congruence. }
    pose proof (validateAliases_spec c (aliases c) byAlias) as Hal.
    destruct (validateAliases c (aliases c) byAlias) as [e|byAlias'].
    { split; [discriminate|]. intros (_ & _ & _ & Hnd & Hnone).
      exfalso. apply Hal. apply NoDup_app in Hnd as (Hnd & _ & _).
      split; [done|]. intros a Ha. apply Hnone, elem_of_app. now left. }
    destruct Hal as (Hnd0 & Hnone0 & Hdom).
    rewrite IH. clear IH.
    split.
    + intros (Hn & Hnd & Hnone & Hnda & Hnonea).
      split; [constructor; done|].
      split.
      { apply NoDup_cons. split; [|done].
        intros Hin. specialize (Hnone _ Hin).
        rewrite lookup_insert_eq in Hnone. discriminate. }
      split.
      { intros n Hin. apply elem_of_cons in Hin as [->|Hin]; [done|].
        specialize (Hnone n Hin).
        destruct (decide (variableName c = n)) as [<-|Hne].
        - rewrite lookup_insert_eq in Hnone. discriminate.
        - rewrite lookup_insert_ne in Hnone; done. }
      split.
      { apply NoDup_app. split; [done|]. split; [|done].
        intros a Ha Hin. specialize (Hnonea a Hin).
        assert (is_Some (byAlias' !! a)) as [? Hsome] by (apply Hdom; now right).
        congruence. }
      intros a Ha. apply elem_of_app in Ha as [Ha|Ha]; [auto|].
      specialize (Hnonea a Ha).
      destruct (byAlias !! a) eqn:Hb; [|done].
      assert (is_Some (byAlias' !! a)) as [? Hsome] by (apply Hdom; left; eauto).
      congruence.
    + intros (Hn & Hnd & Hnone & Hnda & Hnonea).
      inversion Hn as [|? ? Hc Hrest]; subst.
      apply NoDup_cons in Hnd as [Hnotin Hnd].
      apply NoDup_app in Hnda as (_ & Hdisj & Hnda).
      split; [done|]. split; [done|].
      split.
      { intros n Hin. rewrite lookup_insert_ne.
        - apply Hnone. now right.
        - intros <-. done. }
      split; [done|].
      intros a Ha.
      destruct (byAlias' !! a) eqn:Hb; [|done].
      assert (is_Some (byAlias !! a) \/ a ∈ aliases c) as [[? Hsome]|Hin]
        by (apply Hdom; eauto).
      * rewrite Hnonea in Hsome; [discriminate|]. apply elem_of_app. now right.
      * exfalso. exact (Hdisj a Hin Ha).
Qed.

(** X11.  Validation accepts exactly the lists of classes in which every class
    has a section and an option, no two classes share the name
    [section > option], and no alias occurs twice. *)
Theorem validateVariableClasses_accepts variableClasses :
  validateVariableClasses variableClasses = inr tt
  <-> Forall named variableClasses
      /\ NoDup (map variableName variableClasses)
      /\ NoDup (flat_map aliases variableClasses).
Proof.
  unfold validateVariableClasses. rewrite validateFrom_spec.
  split.
  - intros (? & ? & _ & ? & _). done.
  - intros (? & ? & ?). repeat split; try done; intros; apply lookup_empty.
Qed.

(** ** Lookups in a store *)

Lemma store_induction (P : Store.t -> Prop) :
  (forall cache, P (Store.mk cache None)) ->
  (forall cache parent, P parent -> P (Store.mk cache (Some parent))) ->
  forall self, P self.
Proof.
  intros Hroot Hchild. fix IH 1.
  intros [cache [parent|]]; [apply Hchild, IH|apply Hroot].
Qed.

Lemma cached_lookup self variableClass variable :
  Store.variableByClass self !! className variableClass = Some variable ->
  Store.getVariable self variableClass = inr (variable, self).
Proof.
  destruct self as [cache parent]; simpl. intros ->. reflexivity.
Qed.

Lemma lookup_fills_cache self variableClass variable self' :
  Store.getVariable self variableClass = inr (variable, self') ->
  Store.variableByClass self' !! className variableClass = Some variable
  /\ forall other, className other <> className variableClass ->
       Store.variableByClass self' !! className other
       = Store.variableByClass self !! className other.
Proof.
  destruct self as [cache parent]; simpl.
  destruct (cache !! className variableClass) eqn:Hc.
  - intros [= <- <-]. simpl. done.
  - match goal with
    | |- bind ?m _ = _ -> _ => destruct m as [e|[v p]]
    end; simpl; [discriminate|].
    intros [= <- <-]. simpl.
    split; [apply lookup_insert_eq|].
    intros other Hne. apply lookup_insert_ne. congruence.
Qed.

(** X12.  A lookup that returns leaves the variable in the cache of the
    store: the same lookup on the store it leaves returns the same
    variable and changes nothing, whatever the parent stores hold by
    then. *)
Theorem getVariable_caches self variableClass variable self' :
  Store.getVariable self variableClass = inr (variable, self') ->
  Store.variableByClass self' !! className variableClass = Some variable
  /\ Store.getVariable self' variableClass = inr (variable, self')
  /\ (forall parent,
        let detached := Store.mk (Store.variableByClass self') parent in
        Store.getVariable detached variableClass = inr (variable, detached)).
Proof.
  intros Hget. apply lookup_fills_cache in Hget as [Hc Hother].
  split; [done|].
  split; [now apply cached_lookup|].
  intros parent detached. now apply cached_lookup.
Qed.

Lemma getVariable_caches_witness :
  let variableClass := @MaximumNearestNeighborCount ownTypeBuiltins in
  let variable := mkVariable variableClass (VInt 7) in
  let self' :=
    Store.mk (<[className variableClass := variable]> ∅) (Some exampleParent) in
  Store.getVariable exampleChild variableClass = inr (variable, self')
  /\ Store.getVariable self' variableClass = inr (variable, self').
Proof.
  intros variableClass variable self'.
  assert (Hget : Store.getVariable exampleChild variableClass = inr (variable, self'))
    by (vm_compute; reflexivity).
  split; [exact Hget|].
  exact (proj1 (proj2 (getVariable_caches exampleChild variableClass variable self' Hget))).
Defined.

(** X13.  A store chain in which no store caches the class or holds one of
    its dependencies cannot answer: the lookup raises [Unable to get]
    with the name of the class.  In every other chain the lookup returns a
    variable, unless the constructor of the variable raises, and then this
    is the exception of the lookup. *)
Theorem getVariable_answers self variableClass :
  (Store.answers self variableClass = false ->
   Store.getVariable self variableClass
   = inl (VariableError ("Unable to get " +:+ className variableClass)))
  /\ (Store.answers self variableClass = true ->
      (exists variable self',
         Store.getVariable self variableClass = inr (variable, self'))
      \/ (exists e,
            newVariable variableClass VNone = inl e
            /\ Store.getVariable self variableClass = inl e)).
Proof.
  induction self as [cache|cache parent IH] using store_induction.
  - simpl.
    destruct (cache !! className variableClass) eqn:Hc.
    { split; [rewrite bool_decide_eq_true_2 by eauto; discriminate|].
      intros _. left. eauto. }
    rewrite bool_decide_eq_false_2 by (intros [? ?]; discriminate). simpl.
    rewrite orb_false_r.
    destruct (existsb (Store.hasClass cache) (dependencies variableClass)) eqn:Hdep.
    + split; [discriminate|]. intros _.
      destruct (dependencies variableClass); [discriminate|]. simpl.
      destruct (newVariable variableClass VNone) as [e|variable]; simpl; eauto.
    + split; [|discriminate]. intros _.
      rewrite andb_false_r. reflexivity.
  - simpl.
    destruct (cache !! className variableClass) eqn:Hc.
    { split; [rewrite bool_decide_eq_true_2 by eauto; discriminate|].
      intros _. left. eauto. }
    rewrite bool_decide_eq_false_2 by (intros [? ?]; discriminate). simpl.
    destruct (existsb (Store.hasClass cache) (dependencies variableClass)) eqn:Hdep.
    + split; [discriminate|]. intros _.
      destruct (dependencies variableClass); [discriminate|]. simpl.
      destruct (newVariable variableClass VNone) as [e|variable]; simpl; eauto.
    + rewrite andb_false_r. simpl. destruct IH as [IHno IHyes].
      split.
      * intros Hno. rewrite (IHno Hno). reflexivity.
      * intros Hyes. destruct (IHyes Hyes) as [(v & s & ->)|(e & He & ->)]; simpl; eauto.
Qed.

(** X14.  After [set] has stored a class, [get] of that class returns the
    value that [set] stored and leaves the store as [set] left it.  The
    value is the parsed value that was given, when that is not blank, and
    the parsed default when the given value is blank and the class has a
    default; a check of the class has accepted it. *)
Theorem get_after_set self variableClass given self' :
  Store.set self variableClass given = inr self' ->
  exists v,
    Store.get self' variableClass = inr (v, self')
    /\ (isBlank given = false -> parse variableClass given = inr v)
    /\ (isBlank given = true -> isNone (default variableClass) = false ->
        parse variableClass (default variableClass) = inr v)
    /\ (forall validate, check variableClass = Some validate -> validate v = None).
Proof.
  unfold Store.set.
  destruct (newVariable variableClass given) as [e|variable] eqn:Hnew;
    simpl; [discriminate|].
  intros [= <-]. exists (value variable).
  split.
  { unfold Store.get.
    rewrite (cached_lookup _ _ variable) by apply lookup_insert_eq.
    reflexivity. }
  unfold newVariable in Hnew.
  assert (exists v,
             (if isBlank given
              then if isNone (default variableClass)
                   then inr (default variableClass)
                   else parse variableClass (default variableClass)
              else parse variableClass given) = inr v
             /\ value variable = v
             /\ forall validate, check variableClass = Some validate -> validate v = None)
    as (v & Hparsed & Hv & Hcheck).
  { destruct (if isBlank given then _ else _) as [e|v]; simpl in Hnew; [discriminate|].
    exists v. split; [done|].
    destruct (check variableClass) as [validate|].
    - destruct (validate v) eqn:Hvalid; [discriminate|].
      injection Hnew as <-. split; [done|]. by intros ? [= <-].
    - injection Hnew as <-. split; [done|]. by intros ?. }
  rewrite Hv.
  split; [by intros Hb; rewrite Hb in Hparsed|].
  split; [|done].
  intros Hb Hd. by rewrite Hb, Hd in Hparsed.
Qed.

Lemma get_after_set_witness :
  let variableClass := @MinimumNodeCountPerSubnetwork ownTypeBuiltins in
  let self' :=
    Store.mk (<[className variableClass := mkVariable variableClass (VInt 4)]>
                (Store.variableByClass exampleParent)) None in
  Store.set exampleParent variableClass (VInt 4) = inr self'
  /\ Store.get self' variableClass = inr (VInt 4, self').
Proof.
  intros variableClass self'.
  assert (Hset : Store.set exampleParent variableClass (VInt 4) = inr self')
    by reflexivity.
  split; [exact Hset|].
  destruct (get_after_set exampleParent variableClass (VInt 4) self' Hset)
    as (v & Hget & Hgiven & _).
  specialize (Hgiven eq_refl). injection Hgiven as <-. exact Hget.
Defined.

Lemma class_induction (P : VariableClass -> Prop) :
  (forall name sec opt als prs chk dft deps,
     Forall P deps -> P (mkClass name sec opt als prs chk dft deps)) ->
  forall variableClass, P variableClass.
Proof.
  intros Hstep. fix IH 1.
  intros [name sec opt als prs chk dft deps]. apply Hstep.
  induction deps as [|d deps IHdeps]; constructor; [apply IH|apply IHdeps].
Qed.

(** X15.  [has] looks through the dependencies to any depth: a class counts
    as held exactly when the cache has the class or a class that it
    depends on, directly or through other classes. *)
Theorem has_through_dependencies self variableClasses :
  Store.has self variableClasses = true
  <-> exists variableClass other,
        variableClass ∈ variableClasses
        /\ dependsOn variableClass other
        /\ is_Some (Store.variableByClass self !! className other).
Proof.
  destruct self as [cache parent]. unfold Store.has. simpl.
  assert (Hclass : forall c,
             Store.hasClass cache c = true
             <-> exists other, dependsOn c other /\ is_Some (cache !! className other)).
  { induction c as [name sec opt als prs chk dft deps IH] using class_induction.
    simpl. rewrite orb_true_iff, bool_decide_eq_true, existsb_exists.
    split.
    - intros [Hc|(d & Hd & Hhas)].
      + eexists. split; [apply dependsOn_itself|]. exact Hc.
      + rewrite Forall_forall in IH.
        apply list_elem_of_In in Hd.
        apply (IH d Hd) in Hhas as (other & Hdep & Hc).
        exists other. split; [|done].
        eapply dependsOn_through; [|exact Hdep]. exact Hd.
    - intros (other & Hdep & Hc).
      inversion Hdep as [|? d ? Hd Hrest]; subst.
      + now left.
      + right. exists d. split; [now apply list_elem_of_In|].
        rewrite Forall_forall in IH. apply (IH d Hd). eauto. }
  rewrite existsb_exists. split.
  - intros (c & Hin & Hhas). apply Hclass in Hhas as (other & ? & ?).
    exists c, other. split; [now apply list_elem_of_In|done].
  - intros (c & other & Hin & Hdep & Hc).
    exists c. split; [now apply list_elem_of_In|]. apply Hclass. eauto.
Qed.


(** ** The constructor of a store *)

Lemma populate_keeps settings hasParent variableClasses self self' :
  Store.populate settings hasParent self variableClasses = inr self' ->
  Store.variableStore self' = Store.variableStore self
  /\ forall key, is_Some (Store.variableByClass self !! key) ->
       is_Some (Store.variableByClass self' !! key).
Proof.
  revert self.
  induction variableClasses as [|c rest IH]; intros self; simpl.
  - intros [= <-]. done.
  - destruct (extractVariableValue settings c hasParent) as [e|[storeInCache given]];
      simpl; [discriminate|].
    destruct storeInCache; simpl.
    + unfold Store.set.
      destruct (newVariable c given) as [e|variable]; simpl; [discriminate|].
      intros Hrest. apply IH in Hrest as [Hparent Hkeys]. simpl in *.
      split; [done|].
      intros key Hkey. apply Hkeys.
      rewrite lookup_insert_is_Some.
      destruct (decide (className c = key)); [now left|now right].
    + apply IH.
Qed.

Lemma populate_root settings variableClasses self self' variableClass :
  Store.populate settings false self variableClasses = inr self' ->
  variableClass ∈ variableClasses ->
  isNone (default variableClass) = false ->
  is_Some (Store.variableByClass self' !! className variableClass).
Proof.
  revert self.
  induction variableClasses as [|c rest IH]; intros self; simpl.
  - intros _ Hin. inversion Hin.
  - intros Hpop Hin Hdefault.
    destruct (extractVariableValue settings c false) as [e|[storeInCache given]] eqn:Hex;
      simpl in Hpop; [discriminate|].
    apply elem_of_cons in Hin as [->|Hin].
    + assert (storeInCache = true) as ->.
      { unfold extractVariableValue in Hex.
        destruct (firstAlias settings (aliases c)); [now inversion Hex|].
        destruct (sectionValue settings c) as [e|[v|]]; simpl in Hex;
          [discriminate|now inversion Hex|].
        rewrite Hdefault in Hex. simpl in Hex. now inversion Hex. }
      unfold Store.set in Hpop.
      destruct (newVariable c given) as [e|variable]; simpl in Hpop; [discriminate|].
      apply populate_keeps in Hpop as [_ Hkeys]. apply Hkeys. simpl.
      rewrite lookup_insert_eq. eauto.
    + destruct storeInCache; simpl in Hpop.
      * destruct (Store.set self c given) as [e|self1]; simpl in Hpop; [discriminate|].
        eapply IH; eauto.
      * eapply IH; eauto.
Qed.

(** X16.  A store without parent answers, from its own cache, every variable
    class it declares that has a default: once the constructor has
    returned, the lookup of such a class returns and leaves the store as
    it is. *)
Theorem root_store_answers_declared
    variableClasses aggregateClasses summaryClasses settings store variableClass :
  Store.new variableClasses aggregateClasses summaryClasses settings None = inr store ->
  variableClass ∈ variableClasses ->
  isNone (default variableClass) = false ->
  exists variable, Store.getVariable store variableClass = inr (variable, store).
Proof.
  unfold Store.new.
  destruct (validateVariableClasses _) as [e|[]]; [discriminate|].
  destruct (Store.populate settings false _ variableClasses) as [e|self] eqn:Hpop;
    [discriminate|].
  intros [= <-] Hin Hdefault.
  destruct (populate_root _ _ _ _ _ Hpop Hin Hdefault) as [variable Hc].
  exists variable. now apply cached_lookup.
Qed.

Lemma root_store_answers_declared_witness :
  let variableClass := @ExistingNetworks ownTypeBuiltins in
  exists store variable,
    Store.new (@variableClasses ownTypeBuiltins) [] [] ∅ None = inr store
    /\ Store.getVariable store variableClass = inr (variable, store).
Proof.
  intros variableClass.
  destruct (Store.new (@variableClasses ownTypeBuiltins) [] [] ∅ None)
    as [e|store] eqn:Hnew; [vm_compute in Hnew; discriminate|].
  destruct (root_store_answers_declared _ _ _ _ store variableClass Hnew)
    as [variable Hget].
  - right; right; left.
  - reflexivity.
  - exists store, variable. done.
Defined.


(** ** The store of [modKruskal] *)


Section ModKruskalStore.

Context `{Builtins}.








End ModKruskalStore.



Lemma elem_of_classNames name variableClasses :
  name ∈ classNames variableClasses
  <-> exists variableClass, variableClass ∈ variableClasses /\ className variableClass = name.
Proof.
  unfold classNames. rewrite elem_of_list_to_set, list_elem_of_fmap.
  split; intros (c & ? & ?); exists c; done.
Qed.

Lemma reaches_app l k name : reaches (l ++ k) name <-> reaches l name \/ reaches k name.
Proof.
  unfold reaches. split.
  - intros (c & o & Hin & ? & ?). apply elem_of_app in Hin as [?|?]; [left|right]; eauto.
  - intros [(c & o & ? & ? & ?)|(c & o & ? & ? & ?)]; exists c, o;
      (split; [apply elem_of_app; eauto|done]).
Qed.

Lemma dependedOn_app l k name :
  dependedOn (l ++ k) name <-> dependedOn l name \/ dependedOn k name.
Proof.
  unfold dependedOn. split.
  - intros (c & o & d & Hin & ? & ? & ?).
    apply elem_of_app in Hin as [?|?]; [left|right]; eauto 8.
  - intros [(c & o & d & ? & ? & ? & ?)|(c & o & d & ? & ? & ? & ?)]; exists c, o, d;
      (split; [apply elem_of_app; eauto|done]).
Qed.

Lemma reaches_one c name :
  reaches [c] name <-> className c = name \/ reaches (dependencies c) name.
Proof.
  unfold reaches. split.
  - intros (c' & o & Hin & Hdep & Hname).
    apply list_elem_of_singleton in Hin as ->.
    inversion Hdep as [|? d ? Hd Hrest]; subst; [now left|].
    right. eauto.
  - intros [Hname|(d & o & Hd & Hdep & Hname)].
    + exists c, c. split; [apply list_elem_of_here|]. split; [constructor|done].
    + exists c, o. split; [apply list_elem_of_here|].
      split; [|done]. eapply dependsOn_through; eauto.
Qed.

Lemma dependedOn_one c name :
  dependedOn [c] name
  <-> name ∈ classNames (dependencies c) \/ dependedOn (dependencies c) name.
Proof.
  unfold dependedOn. rewrite elem_of_classNames. split.
  - intros (c' & o & d & Hin & Hdep & Hd & Hname).
    apply list_elem_of_singleton in Hin as ->.
    inversion Hdep as [|? d' ? Hd' Hrest]; subst; [left; eauto|].
    right. exists d', o, d. done.
  - intros [(d & Hd & Hname)|(d' & o & d & Hd' & Hdep & Hd & Hname)].
    + exists c, c, d. split; [apply list_elem_of_here|]. split; [constructor|done].
    + exists c, o, d. split; [apply list_elem_of_here|].
      split; [eapply dependsOn_through; eauto|done].
Qed.

Lemma reaches_nil name : ~ reaches [] name.
Proof. intros (c & o & Hin & _). inversion Hin. Qed.

Lemma dependedOn_nil name : ~ dependedOn [] name.
Proof. intros (c & o & d & Hin & _). inversion Hin. Qed.

Lemma classNames_reaches l name : name ∈ classNames l -> reaches l name.
Proof.
  rewrite elem_of_classNames. intros (c & ? & ?).
  exists c, c. split; [done|]. split; [constructor|done].
Qed.

Lemma list_sum_app_map {A} (f : A -> nat) l k :
  list_sum (map f (l ++ k)) = (list_sum (map f l) + list_sum (map f k))%nat.
Proof. rewrite map_app. apply list_sum_app. Qed.

Lemma countClasses_unfold c :
  countClasses c = S (list_sum (map countClasses (dependencies c))).
Proof. destruct c; reflexivity. Qed.

Lemma gatherFrom_spec fuel :
  forall nextClasses variableClasses rootClasses,
    (list_sum (map countClasses nextClasses) <= fuel)%nat ->
    exists variableClasses' rootClasses',
      gatherFrom fuel nextClasses variableClasses rootClasses
      = Some (variableClasses', rootClasses')
      /\ (forall name, name ∈ variableClasses'
                       <-> name ∈ variableClasses \/ reaches nextClasses name)
      /\ (forall name, name ∈ rootClasses'
                       <-> name ∈ rootClasses /\ ~ dependedOn nextClasses name).
Proof.
  induction fuel as [|fuel IH]; intros next V R Hfuel.
  - destruct next as [|c next]; [|simpl in Hfuel; rewrite countClasses_unfold in Hfuel; lia].
    simpl. exists V, R. split; [done|].
    split; intros name.
    + pose proof (reaches_nil name). tauto.
    + pose proof (dependedOn_nil name). tauto.
  - assert (Hnext : next = rev (rev next)) by (symmetry; apply rev_involutive).
    simpl. destruct (rev next) as [|c before].
    { simpl in Hnext. subst next. exists V, R. split; [done|].
      split; intros name.
      + pose proof (reaches_nil name). tauto.
      + pose proof (dependedOn_nil name). tauto. }
    simpl in Hnext. subst next.
    rewrite list_sum_app_map in Hfuel. simpl in Hfuel.
    rewrite countClasses_unfold in Hfuel.
    destruct (dependencies c) as [|d deps] eqn:Hdeps.
    + destruct (IH (rev before) ({[className c]} ∪ V) R) as (V' & R' & -> & HV & HR);
        [lia|].
      exists V', R'. split; [done|].
      split; intros name.
      * rewrite HV, reaches_app, reaches_one, Hdeps, elem_of_union, elem_of_singleton.
        pose proof (reaches_nil name). intuition congruence.
      * rewrite HR, dependedOn_app, dependedOn_one, Hdeps.
        pose proof (dependedOn_nil name).
        assert (name ∉ classNames []) by (unfold classNames; simpl; set_solver).
        tauto.
    + rewrite <- Hdeps in *. clear Hdeps.
      destruct (IH (rev before ++ dependencies c)
                  ({[className c]} ∪ V ∪ classNames (dependencies c))
                  (R ∖ classNames (dependencies c))) as (V' & R' & -> & HV & HR).
      { rewrite list_sum_app_map. lia. }
      exists V', R'. split; [done|].
      split; intros name.
      * rewrite HV, !reaches_app, reaches_one, !elem_of_union, elem_of_singleton.
        pose proof (classNames_reaches (dependencies c) name).
        intuition congruence.
      * rewrite HR, !dependedOn_app, dependedOn_one, elem_of_difference.
        tauto.
Qed.

(** X18.  [gatherVariables] returns, and it collects exactly the classes
    under the declared classes: a class is collected when a declared
    class is it or depends on it, directly or through other classes; the
    roots are the declared classes that no collected class has among its
    dependencies. *)
Theorem gatherVariables_collects variableClasses aggregateClasses summaryClasses :
  let declared := variableClasses ++ aggregateClasses ++ summaryClasses in
  exists collected roots,
    gatherVariables variableClasses aggregateClasses summaryClasses
    = Some (collected, roots)
    /\ (forall name, name ∈ collected <-> reaches declared name)
    /\ (forall name,
          name ∈ roots
          <-> name ∈ classNames declared /\ ~ dependedOn declared name).
Proof.
  intros declared. unfold gatherVariables. fold declared.
  destruct (gatherFrom_spec (list_sum (map countClasses declared)) declared ∅
              (classNames declared)) as (V & R & Hg & HV & HR); [lia|].
  exists V, R. split; [done|]. split; [|done].
  intros name. rewrite HV, elem_of_empty. tauto.
Qed.
